(** * poetry_translator: chunking, indexing, index store, retrieval, prompts

    A shallow embedding of [rag_index.py] and [simple_translator.py].

    Python values are modelled as follows.
    - [str]: the sequence of its Unicode code points ([list N]); [len] and
      every index count code points, as in Python.
    - [int]: [Z] (unbounded).
    - [float]: an IEEE-754 datum ([spec_float]); no claim computes with one.
    - [dict] with string keys: a finite map ([gmap]).
    - The outside world (the embedding service reached over HTTP, the file
      system, [pickle], [str.lower], [str()] of a non-string value and
      [pathlib]'s suffix) is the class [Env]; functions that touch the
      network or write files pass a [World] along. *)

From Stdlib Require Import ZArith NArith List String Ascii Bool Lia SpecFloat.
From stdpp Require Import gmap list sorting.
Import ListNotations.

#[local] Open Scope Z_scope.
#[local] Set Warnings "-register-all".

(** ** Python strings *)

Abbreviation char := N (only parsing).
Abbreviation str := (list N) (only parsing).
Abbreviation float := spec_float (only parsing).

Fixpoint bytes_of_string (s : string) : list N :=
  match s with
  | EmptyString => []
  | String a rest => N_of_ascii a :: bytes_of_string rest
  end.

(** Decoding of the UTF-8 bytes of a literal of this file into code points
    (the literals below are well formed, so no error case is needed). *)
Fixpoint utf8_decode (bs : list N) : str :=
  match bs with
  | [] => []
  | b0 :: r0 =>
      if (b0 <? 128)%N then b0 :: utf8_decode r0
      else match r0 with
      | [] => []
      | b1 :: r1 =>
          if (b0 <? 224)%N then
            ((b0 - 192) * 64 + (b1 - 128))%N :: utf8_decode r1
          else match r1 with
          | [] => []
          | b2 :: r2 =>
              if (b0 <? 240)%N then
                ((b0 - 224) * 4096 + (b1 - 128) * 64 + (b2 - 128))%N
                  :: utf8_decode r2
              else match r2 with
              | [] => []
              | b3 :: r3 =>
                  ((b0 - 240) * 262144 + (b1 - 128) * 4096
                   + (b2 - 128) * 64 + (b3 - 128))%N :: utf8_decode r3
              end
          end
      end
  end.

(** [u"..."] is the Python string literal with that text. *)
Definition u (s : string) : str := utf8_decode (bytes_of_string s).

Definition len (s : str) : Z := Z.of_nat (length s).

(** The index of a slice bound, as [PySlice_AdjustIndices] computes it for a
    step of one: a negative bound counts from the end, and every bound is
    then clamped to [0, len]. *)
Definition adjust_index (n i : Z) : Z :=
  if i <? 0 then Z.max (i + n) 0 else Z.min i n.

(** [s[lo:hi]] *)
Definition py_slice (s : str) (lo hi : Z) : str :=
  let lo' := adjust_index (len s) lo in
  let hi' := adjust_index (len s) hi in
  firstn (Z.to_nat (hi' - lo')) (skipn (Z.to_nat lo') s).

(** [str.isspace] on one code point: the characters whose bidirectional type
    is WS, B or S, or whose category is Zs. *)
Definition is_space (c : char) : bool :=
  ((9 <=? c) && (c <=? 13) || (28 <=? c) && (c <=? 32)
   || (c =? 133) || (c =? 160) || (c =? 5760)
   || (8192 <=? c) && (c <=? 8202)
   || (c =? 8232) || (c =? 8233) || (c =? 8239) || (c =? 8287)
   || (c =? 12288))%N.

Fixpoint lstrip (s : str) : str :=
  match s with
  | [] => []
  | c :: r => if is_space c then lstrip r else s
  end.

Definition rstrip (s : str) : str := rev (lstrip (rev s)).

(** [s.strip()] *)
Definition strip (s : str) : str := rstrip (lstrip s).

(** [s.rfind(c)] for a one-character [c], the position of [s] being [i]:
    the highest index holding [c], or [-1]. *)
Fixpoint rfind_from (i : Z) (s : str) (c : char) : Z :=
  match s with
  | [] => -1
  | x :: r =>
      let k := rfind_from (i + 1) r c in
      if 0 <=? k then k else if (x =? c)%N then i else -1
  end.

Definition rfind (s : str) (c : char) : Z := rfind_from 0 s c.

Fixpoint prefix_of (p s : str) : bool :=
  match p, s with
  | [], _ => true
  | _ :: _, [] => false
  | a :: p', b :: s' => (a =? b)%N && prefix_of p' s'
  end.

(** [needle in hay] for two strings. *)
Fixpoint contains (needle hay : str) : bool :=
  prefix_of needle hay
  || match hay with
     | [] => false
     | _ :: r => contains needle r
     end.

(** [sep.join(parts)] *)
Fixpoint join (sep : str) (parts : list str) : str :=
  match parts with
  | [] => []
  | [p] => p
  | p :: rest => p ++ sep ++ join sep rest
  end.


Definition nl : str := [10%N].

(** [os.path.join(a, b)] of [posixpath]. *)
Definition os_path_join (a b : str) : str :=
  if prefix_of (u"/") b then b
  else if bool_decide (a = []) || prefix_of (u"/") (rev a) then a ++ b
  else a ++ u"/" ++ b.

(** ** Python values *)

(** What [json.load] returns. *)
Inductive json : Type :=
  | JNull
  | JBool (b : bool)
  | JInt (z : Z)
  | JFloat (f : float)
  | JStr (s : str)
  | JList (l : list json)
  | JDict (d : list (str * json)).

(** The values of a metadata mapping. *)
Inductive pyval : Type :=
  | PStr (s : str)
  | PInt (z : Z).

(** The dictionary [index_file] builds for one chunk. *)
Record ChunkRecord : Type := {
  text : str;
  embedding : list float;
  metadata : gmap str pyval
}.

(** What [requests.post(url, json=data)], [raise_for_status()] and
    [response.json()] give for the embeddings endpoint: a
    [RequestException] (a body that is not JSON is one of them), a JSON
    value that is not an object, on which [result.get] raises
    [AttributeError], or the reply object, whose key ["embedding"] is
    absent or holds a vector. *)
Inductive embeddings_reply : Type :=
  | EmbeddingsRequestException
  | EmbeddingsNotObject
  | EmbeddingsResult (embedding_value : option (list float)).

(** The same for the generation endpoint, whose reply holds ["response"];
    [translate] catches every exception, so one case stands for them
    all. *)
Inductive generate_reply : Type :=
  | GenerateException
  | GenerateResult (response_value : option str).

(** ** The environment of the program *)

Class Env : Type := {
  World : Type;
  bytes : Type;
  (** [requests.post] to [url] with [{"model": model, "prompt": prompt}] *)
  post_embeddings : str -> str -> str -> World -> embeddings_reply * World;
  post_generate : str -> str -> str -> World -> generate_reply * World;
  (** [open(path, "r", encoding="utf-8")] and [f.read()]; [None] is any
      exception *)
  read_text : str -> World -> option str;
  (** the same followed by [json.load(f)], for a file that holds an object *)
  json_load : str -> World -> option (gmap str json);
  (** [Path(path).suffix] *)
  suffix : str -> str;
  (** [Path(path).rglob("*")], as the list of the paths it yields *)
  rglob : str -> World -> list str;
  (** [Path(path).is_file()] *)
  is_file : str -> World -> bool;
  (** [s.lower()] *)
  lower : str -> str;
  (** [str(v)], which is also how an f-string renders [v] *)
  py_str : json -> str;
  (** [os.makedirs(path, exist_ok=True)]; [None] is an exception *)
  makedirs : str -> World -> option World;
  (** [open(path, "wb")] and writing [data] through it *)
  write_bytes : str -> bytes -> World -> option World;
  (** [os.path.exists(path)] *)
  path_exists : str -> World -> bool;
  (** [open(path, "rb")] and reading all of it *)
  read_bytes : str -> World -> option bytes;
  (** [pickle.dump] and [pickle.load] on a list of chunk dictionaries *)
  pickle_dumps : list ChunkRecord -> bytes;
  pickle_loads : bytes -> option (list ChunkRecord)
}.

(** What the program relies on from the file system and from [pickle]: a
    file that was written exists and reads back as written, and a pickled
    list unpickles to itself. *)
Class EnvLaws (E : Env) : Prop := {
  write_then_exists : forall path data w w',
    write_bytes path data w = Some w' -> path_exists path w' = true;
  write_then_read : forall path data w w',
    write_bytes path data w = Some w' -> read_bytes path w' = Some data;
  pickle_roundtrip : forall chunks,
    pickle_loads (pickle_dumps chunks) = Some chunks
}.

(** ** rag_index.py *)

Module rag_index.

Definition OLLAMA_URL : str := u"http://localhost:11434".
Definition EMBEDDING_MODEL : str := u"nomic-embed-text".
Definition INDEX_DIR : str := u"rag_index".
Definition CHUNK_SIZE : Z := 500.
Definition CHUNK_OVERLAP : Z := 50.

Definition dot : char := 46%N.
Definition bang : char := 33%N.
Definition question : char := 63%N.
Definition newline : char := 10%N.

(** One pass through the body of the [while] of [split_text], from cursor
    [start]: the chunk appended and the next cursor.  The test
    [last_sentence > chunk_size * 0.5] compares an integer with a float, and
    Python compares the two exactly: it is [chunk_size < 2 * last_sentence]
    (for every [chunk_size] a float holds exactly, below 2^53). *)
Definition split_step (text : str) (chunk_size overlap start : Z) : str * Z :=
  let end_ := start + chunk_size in
  let chunk := py_slice text start end_ in
  let '(chunk, end_) :=
    if end_ <? len text then
      let last_sentence :=
        Z.max (Z.max (Z.max (rfind chunk dot) (rfind chunk bang))
                 (rfind chunk question)) (rfind chunk newline) in
      if chunk_size <? 2 * last_sentence then
        (py_slice chunk 0 (last_sentence + 1), start + last_sentence + 1)
      else (chunk, end_)
    else (chunk, end_) in
  (strip chunk, end_ - overlap).

(** The [while] loop of [split_text]; [fuel] bounds the number of passes
    through the body, and [None] says that the bound was reached with the
    loop still running. *)
Fixpoint split_loop (fuel : nat) (text : str) (chunk_size overlap start : Z)
    (chunks : list str) : option (list str) :=
  if start <? len text then
    match fuel with
    | O => None
    | S fuel' =>
        let '(chunk, start') := split_step text chunk_size overlap start in
        let chunks := chunks ++ [chunk] in
        if len text <=? start' then Some chunks
        else split_loop fuel' text chunk_size overlap start' chunks
    end
  else Some chunks.

(** [split_text(text, chunk_size, overlap)], run for at most [fuel] passes. *)
Definition split_text_fuel (fuel : nat) (text : str) (chunk_size overlap : Z)
  : option (list str) :=
  split_loop fuel text chunk_size overlap 0 [].

(** [split_text(text)], with the defaults [CHUNK_SIZE] and [CHUNK_OVERLAP]:
    [length text] passes are always enough there
    ([split_text_defaults_enough_fuel]). *)
Definition split_text (text : str) : list str :=
  default [] (split_text_fuel (length text) text CHUNK_SIZE CHUNK_OVERLAP).

Section WithEnv.
Context {E : Env}.

(** [get_embedding(text, model)]; only [RequestException] is caught, so
    the [AttributeError] of a reply that is not an object leaves the
    function ([None]). *)
Definition get_embedding (text model : str) (w : World)
  : option (list float * World) :=
  let url := OLLAMA_URL ++ u"/api/embeddings" in
  match post_embeddings url model text w with
  | (EmbeddingsResult (Some embedding), w') => Some (embedding, w')
  | (EmbeddingsResult None, w') => Some ([], w')
  | (EmbeddingsRequestException, w') => Some ([], w')
  | (EmbeddingsNotObject, _) => None
  end.

(** How an f-string renders a value. *)
Definition fmt (v : json) : str :=
  match v with
  | JStr s => s
  | _ => py_str v
  end.

Definition as_str (v : json) : option str :=
  match v with
  | JStr s => Some s
  | _ => None
  end.

(** [", ".join(v) if isinstance(v, list) else str(v)]; joining a list that
    holds something else than strings raises [TypeError] ([None]). *)
Definition devices_str (v : json) : option str :=
  match v with
  | JList l => join (u", ") <$> mapM as_str l
  | _ => Some (fmt v)
  end.

(** [full_text] of [process_json_file], for the object [data]. *)
Definition json_full_text (data : gmap str json) : option str :=
  let text_parts : list str := [] in
  let text_parts :=
    match data !! u"title_original" with
    | Some v => text_parts ++ [u"Название (оригинал): " ++ fmt v]
    | None => text_parts
    end in
  let text_parts :=
    match data !! u"title_translation" with
    | Some v => text_parts ++ [u"Название (перевод): " ++ fmt v]
    | None => text_parts
    end in
  let text_parts :=
    match data !! u"author" with
    | Some v => text_parts ++ [u"Автор: " ++ fmt v]
    | None => text_parts
    end in
  let text_parts :=
    match data !! u"translator" with
    | Some v => text_parts ++ [u"Переводчик: " ++ fmt v]
    | None => text_parts
    end in
  let text_parts :=
    match data !! u"original" with
    | Some v => text_parts ++ [(nl ++ u"Оригинальный текст:" ++ nl) ++ fmt v]
    | None => text_parts
    end in
  let text_parts :=
    match data !! u"translation" with
    | Some v => text_parts ++ [(nl ++ u"Перевод:" ++ nl) ++ fmt v]
    | None => text_parts
    end in
  let text_parts :=
    match data !! u"rhyme_scheme" with
    | Some v => text_parts ++ [(nl ++ u"Схема рифмовки: ") ++ fmt v]
    | None => text_parts
    end in
  let text_parts :=
    match data !! u"meter" with
    | Some v => text_parts ++ [u"Размер: " ++ fmt v]
    | None => text_parts
    end in
  text_parts ←
    match data !! u"devices" with
    | Some v =>
        devices_str ← devices_str v;
        Some (text_parts ++ [u"Художественные приемы: " ++ devices_str])
    | None => Some text_parts
    end;
  let text_parts :=
    match data !! u"comment" with
    | Some v => text_parts ++ [(nl ++ u"Комментарий: ") ++ fmt v]
    | None => text_parts
    end in
  Some (join nl text_parts).

(** [None] is the [TypeError] of [devices_str]. *)
Definition process_json_file (file_path : str) (w : World)
  : option (list str) :=
  match json_load file_path w with
  | None => Some []
  | Some data =>
      full_text ← json_full_text data;
      Some (split_text full_text)
  end.

(** [{"file": file_path, "chunk_index": i, **(metadata or {})}]: the keys of
    [metadata] are written last. *)
Definition chunk_metadata (file_path : str) (i : Z)
    (metadata : option (gmap str pyval)) : gmap str pyval :=
  default ∅ metadata
  ∪ <[u"chunk_index" := PInt i]> (<[u"file" := PStr file_path]> ∅).

(** The [for i, chunk in enumerate(chunks)] loop of [index_file], at
    position [i] with [indexed_chunks] accumulated so far; [None] is the
    exception of a [get_embedding] that raised. *)
Fixpoint index_loop (file_path : str) (metadata : option (gmap str pyval))
    (i : Z) (chunks : list str) (indexed_chunks : list ChunkRecord)
    (w : World) : option (list ChunkRecord * World) :=
  match chunks with
  | [] => Some (indexed_chunks, w)
  | chunk :: rest =>
      if bool_decide (strip chunk = []) then
        index_loop file_path metadata (i + 1) rest indexed_chunks w
      else
        match get_embedding chunk EMBEDDING_MODEL w with
        | None => None
        | Some ([], w) =>
            index_loop file_path metadata (i + 1) rest indexed_chunks w
        | Some (embedding, w) =>
            index_loop file_path metadata (i + 1) rest
              (indexed_chunks
               ++ [{| text := chunk;
                      embedding := embedding;
                      metadata := chunk_metadata file_path i metadata |}])
              w
        end
  end.

(** [index_file(file_path, metadata)]; [None] is an exception that leaves
    the function. *)
Definition index_file (file_path : str) (metadata : option (gmap str pyval))
    (w : World) : option (list ChunkRecord * World) :=
  let file_ext := lower (suffix file_path) in
  if bool_decide (file_ext = u".json") then
    chunks ← process_json_file file_path w;
    index_loop file_path metadata 0 chunks [] w
  else
    match read_text file_path w with
    | None => Some ([], w)
    | Some text =>
        let chunks := split_text text in
        index_loop file_path metadata 0 chunks [] w
    end.

Definition DEFAULT_EXTENSIONS : list str :=
  [u".txt"; u".md"; u".py"; u".js"; u".html"; u".css"; u".json"].

(** The [for file_path in path.rglob("*")] loop of [index_directory]. *)
Fixpoint index_directory_loop (extensions files : list str)
    (all_chunks : list ChunkRecord) (w : World)
  : option (list ChunkRecord * World) :=
  match files with
  | [] => Some (all_chunks, w)
  | file_path :: rest =>
      if is_file file_path w && bool_decide (suffix file_path ∈ extensions)
      then
        r ← index_file file_path None w;
        index_directory_loop extensions rest (all_chunks ++ r.1) r.2
      else index_directory_loop extensions rest all_chunks w
  end.

(** [index_directory(directory, extensions)]; [extensions] is [None] when
    the argument is left out. *)
Definition index_directory (directory : str) (extensions : option (list str))
    (w : World) : option (list ChunkRecord * World) :=
  let extensions := default DEFAULT_EXTENSIONS extensions in
  if negb (path_exists directory w) then Some ([], w)
  else index_directory_loop extensions (rglob directory w) [] w.

(** [save_index(chunks, index_name)]; [None] is an exception. *)
Definition save_index (chunks : list ChunkRecord) (index_name : str)
    (w : World) : option World :=
  w ← makedirs INDEX_DIR w;
  let index_file := os_path_join INDEX_DIR (index_name ++ u".pkl") in
  write_bytes index_file (pickle_dumps chunks) w.

(** [main()] with [sys.argv = argv]: [inl code] is [sys.exit(code)], [inr w]
    a normal return, [None] an exception. *)
Definition main (argv : list str) (w : World) : option (Z + World) :=
  if bool_decide (length argv < 2)%nat then Some (inl 1)
  else
    let index_name := u"default" in
    let args := drop 1 argv in
    let arg (i : nat) : str := default [] (args !! i) in
    r ←
      (if bool_decide (arg 0%nat = u"--dir")
          && bool_decide (2 <= length args)%nat
       then
         let directory := arg 1%nat in
         let index_name :=
           if bool_decide (4 <= length args)%nat
              && bool_decide (arg 2%nat = u"--name")
           then arg 3%nat else index_name in
         pair index_name <$> index_directory directory None w
       else if bool_decide (arg 0%nat = u"--name")
               && bool_decide (3 <= length args)%nat
       then
         let index_name := arg 1%nat in
         let file_path := arg 2%nat in
         pair index_name <$> index_file file_path None w
       else
         let file_path := arg 0%nat in
         pair index_name <$> index_file file_path None w);
    match r.2.1 with
    | [] => Some (inr r.2.2)
    | _ :: _ => inr <$> save_index r.2.1 r.1 r.2.2
    end.

End WithEnv.
End rag_index.

(** ** simple_translator.py *)

Module simple_translator.

Definition OLLAMA_URL : str := u"http://localhost:11434".
Definition GENERATION_MODEL : str := u"gemma3:12b".
Definition INDEX_DIR : str := u"rag_index".

Section WithEnv.
Context {E : Env}.

(** [load_index(index_name)]; [None] is an exception. *)
Definition load_index (index_name : str) (w : World)
  : option (list ChunkRecord) :=
  let index_file := os_path_join INDEX_DIR (index_name ++ u".pkl") in
  if negb (path_exists index_file w) then Some []
  else
    data ← read_bytes index_file w;
    pickle_loads data.

(** The loop of [find_poems_by_translator]; a [ChunkRecord] always has its
    key ["text"], so [chunk.get("text", "")] is the field. *)
Fixpoint find_loop (translator_lower : str) (index found : list ChunkRecord)
  : list ChunkRecord :=
  match index with
  | [] => found
  | chunk :: rest =>
      let chunk_text := lower (text chunk) in
      if contains translator_lower chunk_text then
        find_loop translator_lower rest (found ++ [chunk])
      else find_loop translator_lower rest found
  end.

Definition find_poems_by_translator (translator_name : str)
    (index : list ChunkRecord) : list ChunkRecord :=
  let found := [] in
  let translator_lower := lower translator_name in
  find_loop translator_lower index found.

(** The loop of [translate] that collects [examples]. *)
Fixpoint examples_loop (translator_poems : list ChunkRecord)
    (examples : list str) : list str :=
  match translator_poems with
  | [] => examples
  | chunk :: rest =>
      let chunk_text := text chunk in
      if contains (u"Оригинальный текст:") chunk_text
         && contains (u"Перевод:") chunk_text
      then examples_loop rest (examples ++ [chunk_text])
      else examples_loop rest examples
  end.

(** The [prompt] that [translate] composes from the poems found for the
    style: its lines 44 to 80. *)
Definition build_prompt (poem_text translator_style : str)
    (translator_poems : list ChunkRecord) : str :=
  let examples := examples_loop translator_poems [] in
  match examples with
  | _ :: _ =>
      let examples_text := join (nl ++ nl ++ u"---" ++ nl ++ nl) examples in
      u"Ты профессиональный переводчик детских стихотворений с английского на русский.
⚠️ Задача: перевести это стихотворение **полностью рифмованно** по всей длине.
⚠️ Каждая пара строк должна строго рифмоваться (AABB или ABAB). 
⚠️ Смысл можно слегка адаптировать ради рифмы, но смысл каждой строки должен быть понятен.
⚠️ Сначала **определи все рифмы для всего стихотворения**, а потом составь строки.
⚠️ Весь текст должен быть рифмованным, без исключений, без лишних слов.

Примеры переводов "
      ++ translator_style
      ++ u" служат как вдохновение, не копируй их дословно:

"
      ++ examples_text
      ++ u"

---

Переведи это стихотворение строго рифмованно, соблюдая схему рифмы, ритм и музыкальность. Сначала придумай рифмы для всего стихотворения, потом составь строки:

"
      ++ poem_text
      ++ u"

Твой перевод (только текст, полностью рифмованно, без комментариев):"
  | [] =>
      u"Ты профессиональный переводчик детских стихотворений с английского на русский.
⚠️ Задача: перевести это стихотворение **полностью рифмованно** по всей длине.
⚠️ Каждая пара строк должна строго рифмоваться (AABB или ABAB). 
⚠️ Смысл можно слегка адаптировать ради рифмы, но смысл каждой строки должен быть понятен.
⚠️ Сначала **определи все рифмы для всего стихотворения**, а потом составь строки.
⚠️ Весь текст должен быть рифмованным, без исключений, без лишних слов.

"
      ++ poem_text
      ++ u"

Твой перевод (только текст, полностью рифмованно, без комментариев):"
  end.

(** [translate(poem_text, translator_style, index, model)]: the text
    returned, or [None] when the request raised. *)
Definition translate (poem_text translator_style : str)
    (index : list ChunkRecord) (model : str) (w : World)
  : option str * World :=
  let translator_poems := find_poems_by_translator translator_style index in
  let prompt := build_prompt poem_text translator_style translator_poems in
  let url := OLLAMA_URL ++ u"/api/generate" in
  match post_generate url model prompt w with
  | (GenerateResult (Some response), w') => (Some response, w')
  | (GenerateResult None, w') => (Some [], w')
  | (GenerateException, w') => (None, w')
  end.

End WithEnv.
End simple_translator.

Import rag_index simple_translator.

(** ** simple_translator.py: the command line *)

Module simple_translator_main.

(** The three variables the argument loop of [main] sets. *)
Record options : Type := {
  translator_style : str;
  poem_text : str;
  file_path : option str
}.

(** The [while i < len(args)] loop of [main], on the arguments from
    position [i] on: a flag with a word after it takes that word, and
    anything else makes the rest of the command line the poem. *)
Fixpoint parse_args (args : list str) (opts : options) : options :=
  match args with
  | [] => opts
  | a :: rest =>
      match rest with
      | b :: rest' =>
          if bool_decide (a = u"--style") then
            parse_args rest'
              {| translator_style := b;
                 poem_text := poem_text opts;
                 file_path := file_path opts |}
          else if bool_decide (a = u"--file") then
            parse_args rest'
              {| translator_style := translator_style opts;
                 poem_text := poem_text opts;
                 file_path := Some b |}
          else
            {| translator_style := translator_style opts;
               poem_text := join (u" ") args;
               file_path := file_path opts |}
      | [] =>
          {| translator_style := translator_style opts;
             poem_text := join (u" ") args;
             file_path := file_path opts |}
      end
  end.

Section WithEnv.
Context {E : Env}.

(** [main()] with [sys.argv = argv], what it prints left out: [inl code] is
    [sys.exit(code)], [inr (translation, w)] a normal return after
    [translate] gave [translation], [None] an exception ([open] and
    [load_index] are not guarded). *)
Definition main (argv : list str) (w : World)
  : option (Z + option str * World) :=
  if bool_decide (length argv < 3)%nat then Some (inl 1)
  else
    let opts :=
      parse_args (drop 1 argv)
        {| translator_style := []; poem_text := []; file_path := None |} in
    if bool_decide (translator_style opts = []) then Some (inl 1)
    else
      let run (poem_text : str) : option (Z + option str * World) :=
        index ← load_index (u"default") w;
        Some (inr (translate poem_text (translator_style opts) index
                     GENERATION_MODEL w)) in
      match file_path opts with
      | Some (c :: path) =>
          text ← read_text (c :: path) w;
          run (strip text)
      | _ =>
          if bool_decide (poem_text opts = []) then Some (inl 1)
          else run (poem_text opts)
      end.

End WithEnv.
End simple_translator_main.

(** ** app.py: the command line *)

Module app.

(** What [main] goes on to call. *)
Inductive call : Type :=
  | ListModels
  | Generate (prompt model : str) (stream : bool).

(** [main()] with [sys.argv = argv], up to the call it makes: [inl code] is
    [sys.exit(code)]. *)
Definition main_call (argv : list str) : Z + call :=
  if bool_decide (length argv < 2)%nat then inl 1
  else if bool_decide (argv !! 1%nat = Some (u"--list")) then inr ListModels
  else
    let args := drop 1 argv in
    let '(model, prompt, stream) :=
      if bool_decide (args !! 0%nat = Some (u"--model"))
         && bool_decide (3 <= length args)%nat
      then (default [] (args !! 1%nat), join (u" ") (drop 2 args), false)
      else if bool_decide (args !! 0%nat = Some (u"--stream"))
      then (u"gpt-oss:20b", join (u" ") (drop 1 args), true)
      else (u"gpt-oss:20b", join (u" ") args, false) in
    if bool_decide (prompt = []) then inl 1
    else inr (Generate prompt model stream).

End app.

(** * Definitions of the specification and a concrete environment *)

Section NormalizerDefinitions.
Context {E : Env}.

(** The ten [if key in data: text_parts.append(...)] statements of
    [process_json_file] as a table, in source order: the key, what the
    f-string puts before the value, and the code's rendering of the
    value. *)
Definition labelled_fields : list (str * str * (json -> option str)) :=
  [ (u"title_original", u"Название (оригинал): ", fun v => Some (fmt v));
    (u"title_translation", u"Название (перевод): ", fun v => Some (fmt v));
    (u"author", u"Автор: ", fun v => Some (fmt v));
    (u"translator", u"Переводчик: ", fun v => Some (fmt v));
    (u"original", nl ++ u"Оригинальный текст:" ++ nl, fun v => Some (fmt v));
    (u"translation", nl ++ u"Перевод:" ++ nl, fun v => Some (fmt v));
    (u"rhyme_scheme", nl ++ u"Схема рифмовки: ", fun v => Some (fmt v));
    (u"meter", u"Размер: ", fun v => Some (fmt v));
    (u"devices", u"Художественные приемы: ", devices_str);
    (u"comment", nl ++ u"Комментарий: ", fun v => Some (fmt v)) ].

(** The parts the statements of a table append, for the keys [data] has. *)
Fixpoint render_present (data : gmap str json)
    (fields : list (str * str * (json -> option str))) : option (list str) :=
  match fields with
  | [] => Some []
  | (key, label, render) :: rest =>
      match data !! key with
      | None => render_present data rest
      | Some v =>
          s ← render v;
          parts ← render_present data rest;
          Some ((label ++ s) :: parts)
      end
  end.

(** [json_full_text] as one pass over the table
    ([json_full_text_refines]). *)
Definition json_full_text_table (data : gmap str json) : option str :=
  join nl <$> render_present data labelled_fields.

(** Following the specification: how a value is written, a sequence of
    rhetorical devices joined with [", "]. *)
Definition spec_stringify (v : json) : str :=
  match v with
  | JStr s => s
  | _ => py_str v
  end.

Definition spec_devices (v : json) : str :=
  match v with
  | JList items => join (u", ") (spec_stringify <$> items)
  | _ => spec_stringify v
  end.

(** Following the specification: the fields in their fixed order, each with
    whether a blank line comes before it, its label and its rendering. The
    specification puts a blank line before the original text, the
    translation and the comment; [rhyme_after_blank_line] says whether one
    comes before the rhyme scheme too. The label texts are the program's:
    the specification names the fields only. *)
Definition spec_fields (rhyme_after_blank_line : bool)
  : list (str * bool * str * (json -> str)) :=
  [ (u"title_original", false, u"Название (оригинал): ", spec_stringify);
    (u"title_translation", false, u"Название (перевод): ", spec_stringify);
    (u"author", false, u"Автор: ", spec_stringify);
    (u"translator", false, u"Переводчик: ", spec_stringify);
    (u"original", true, u"Оригинальный текст:" ++ nl, spec_stringify);
    (u"translation", true, u"Перевод:" ++ nl, spec_stringify);
    (u"rhyme_scheme", rhyme_after_blank_line, u"Схема рифмовки: ",
     spec_stringify);
    (u"meter", false, u"Размер: ", spec_stringify);
    (u"devices", false, u"Художественные приемы: ", spec_devices);
    (u"comment", true, u"Комментарий: ", spec_stringify) ].

(** The blocks of the fields that are present, nothing for the others. *)
Fixpoint spec_blocks (data : gmap str json)
    (fields : list (str * bool * str * (json -> str))) : list str :=
  match fields with
  | [] => []
  | (key, blank_line, label, render) :: rest =>
      match data !! key with
      | None => spec_blocks data rest
      | Some v =>
          ((if blank_line : bool then nl else []) ++ label ++ render v)
          :: spec_blocks data rest
      end
  end.

Definition spec_normalize (rhyme_after_blank_line : bool)
    (data : gmap str json) : str :=
  join nl (spec_blocks data (spec_fields rhyme_after_blank_line)).

(** The documents whose ["devices"], when a list, holds strings only. *)
Definition devices_are_strings (data : gmap str json) : Prop :=
  forall items,
    data !! u"devices" = Some (JList items) ->
    Forall (fun v => exists s, v = JStr s) items.

(** One [if key in data: text_parts.append(...)] of the source, on the
    parts gathered so far. *)
Definition add_field (data : gmap str json) (acc : option (list str))
    (field : str * str * (json -> option str)) : option (list str) :=
  parts ← acc;
  match data !! field.1.1 with
  | Some v => s ← field.2 v; Some (parts ++ [field.1.2 ++ s])
  | None => Some parts
  end.

End NormalizerDefinitions.

(** A chunk usable as an exemplar: it holds both markers. *)
Definition qualifies (chunk : ChunkRecord) : bool :=
  contains (u"Оригинальный текст:") (text chunk)
  && contains (u"Перевод:") (text chunk).

Definition rhyme_constraints : str :=
  u"Ты профессиональный переводчик детских стихотворений с английского на русский.
⚠️ Задача: перевести это стихотворение **полностью рифмованно** по всей длине.
⚠️ Каждая пара строк должна строго рифмоваться (AABB или ABAB). 
⚠️ Смысл можно слегка адаптировать ради рифмы, но смысл каждой строки должен быть понятен.
⚠️ Сначала **определи все рифмы для всего стихотворения**, а потом составь строки.
⚠️ Весь текст должен быть рифмованным, без исключений, без лишних слов.".

Definition separator : str := nl ++ nl ++ u"---" ++ nl ++ nl.

Definition examples_section (translator_style : str) (examples : list str)
  : str :=
  u"Примеры переводов " ++ translator_style
  ++ u" служат как вдохновение, не копируй их дословно:" ++ nl ++ nl
  ++ join separator examples ++ separator
  ++ u"Переведи это стихотворение строго рифмованно, соблюдая схему рифмы, ритм и музыкальность. Сначала придумай рифмы для всего стихотворения, потом составь строки:"
  ++ nl ++ nl.

Definition closing : str :=
  nl ++ nl
  ++ u"Твой перевод (только текст, полностью рифмованно, без комментариев):".

Definition styled_template (translator_style : str) (examples : list str)
    (poem_text : str) : str :=
  (rhyme_constraints ++ nl ++ nl)
  ++ examples_section translator_style examples ++ (poem_text ++ closing).

Definition reduced_template (poem_text : str) : str :=
  (rhyme_constraints ++ nl ++ nl) ++ (poem_text ++ closing).

Record demo_world : Type := {
  demo_requests : nat;
  demo_texts : gmap str str;
  demo_blobs : gmap str (list ChunkRecord)
}.

Definition demo_lower (s : str) : str :=
  map (fun c => if ((65 <=? c) && (c <=? 90))%N then (c + 32)%N else c) s.

Definition demo_suffix (path : str) : str :=
  let i := rfind path 46%N in
  if i <? 0 then [] else py_slice path i (len path).

Definition demo_env : Env := {|
  World := demo_world;
  bytes := list ChunkRecord;
  post_embeddings := fun _ _ _ w =>
    (if Nat.eqb (demo_requests w) 1 then EmbeddingsRequestException
     else EmbeddingsResult (Some [S754_zero false]),
     {| demo_requests := S (demo_requests w);
        demo_texts := demo_texts w;
        demo_blobs := demo_blobs w |});
  post_generate := fun _ _ _ w => (GenerateException, w);
  read_text := fun path w => demo_texts w !! path;
  json_load := fun _ _ => None;
  suffix := demo_suffix;
  rglob := fun directory w =>
    List.filter (prefix_of directory) (map fst (map_to_list (demo_texts w)));
  is_file := fun path w => bool_decide (is_Some (demo_texts w !! path));
  lower := demo_lower;
  py_str := fun _ => [];
  makedirs := fun _ w => Some w;
  write_bytes := fun path data w =>
    Some {| demo_requests := demo_requests w;
            demo_texts := demo_texts w;
            demo_blobs := <[path := data]> (demo_blobs w) |};
  path_exists := fun path w => bool_decide (is_Some (demo_blobs w !! path));
  read_bytes := fun path w => demo_blobs w !! path;
  pickle_dumps := fun chunks => chunks;
  pickle_loads := fun data => Some data
|}.

(** A world with one text file of 1200 letters, which the defaults split
    into three chunks. *)
Definition demo_start : demo_world := {|
  demo_requests := 0;
  demo_texts := {[ u"poem.txt" := repeat 97%N 1200 ]};
  demo_blobs := ∅
|}.

Definition demo_record : ChunkRecord :=
  {| text := u"abc"; embedding := [S754_zero false]; metadata := ∅ |}.

Section IndexerDefinitions.
Context {E : Env}.

(** The chunk sequence [index_file] computes for a file before it embeds
    anything: its lines 122 to 136. *)
Definition file_chunks (file_path : str) (w : World) : option (list str) :=
  if bool_decide (lower (suffix file_path) = u".json") then
    process_json_file file_path w
  else
    Some match read_text file_path w with
         | None => []
         | Some text => split_text text
         end.

(** What the embedding client answers for each chunk in turn, when it
    returns for every one of them; a chunk that is blank is not sent and
    counts as answered with no vector. [None] is a call that raised. *)
Fixpoint embeddings_received (chunks : list str) (w : World)
  : option (list (list float)) :=
  match chunks with
  | [] => Some []
  | chunk :: rest =>
      if bool_decide (strip chunk = []) then
        cons [] <$> embeddings_received rest w
      else
        match get_embedding chunk EMBEDDING_MODEL w with
        | None => None
        | Some (embedding, w) => cons embedding <$> embeddings_received rest w
        end
  end.

Definition record_of (file_path : str) (metadata : option (gmap str pyval))
    (i : nat) (chunk : str) (embedding : list float) : ChunkRecord :=
  {| text := chunk;
     embedding := embedding;
     metadata := chunk_metadata file_path (Z.of_nat i) metadata |}.


End IndexerDefinitions.

Definition demo_chunks : list str :=
  [repeat 97%N 500; repeat 97%N 500; repeat 97%N 300].

Definition demo_after : demo_world := {|
  demo_requests := 3;
  demo_texts := demo_texts demo_start;
  demo_blobs := ∅
|}.

(** What [index_file] returns there with the metadata [metadata]: the
    records of the first and of the third chunk. *)
Definition demo_indexed (metadata : option (gmap str pyval))
  : list ChunkRecord :=
  [ record_of (u"poem.txt") metadata 0 (repeat 97%N 500)
      [S754_zero false];
    record_of (u"poem.txt") metadata 2 (repeat 97%N 300)
      [S754_zero false] ].

(** The demonstration environment with a service whose second reply is
    JSON but not an object. *)
Definition demo_bad_env : Env := {|
  World := demo_world;
  bytes := list ChunkRecord;
  post_embeddings := fun _ _ _ w =>
    (if Nat.eqb (demo_requests w) 1 then EmbeddingsNotObject
     else EmbeddingsResult (Some [S754_zero false]),
     {| demo_requests := S (demo_requests w);
        demo_texts := demo_texts w;
        demo_blobs := demo_blobs w |});
  post_generate := @post_generate demo_env;
  read_text := @read_text demo_env;
  json_load := @json_load demo_env;
  suffix := demo_suffix;
  rglob := @rglob demo_env;
  is_file := @is_file demo_env;
  lower := demo_lower;
  py_str := fun _ => [];
  makedirs := @makedirs demo_env;
  write_bytes := @write_bytes demo_env;
  path_exists := @path_exists demo_env;
  read_bytes := @read_bytes demo_env;
  pickle_dumps := fun chunks => chunks;
  pickle_loads := fun data => Some data
|}.

(** An index of three records, two of which name Smith. *)
Definition demo_index : list ChunkRecord :=
  [ {| text := u"Translated by John Smith"; embedding := []; metadata := ∅ |};
    {| text := u"Translated by Ann Jones"; embedding := []; metadata := ∅ |};
    {| text := u"smith and jones"; embedding := []; metadata := ∅ |} ].

(** The document of the scenario of the normalizer. *)
Definition demo_document : gmap str json :=
  <[u"author" := JStr (u"X")]>
    (<[u"original" := JStr (u"line1")]>
       (<[u"translation" := JStr (u"строка1")]> ∅)).

(** A document with an author and a rhyme scheme. *)
Definition demo_rhymed : gmap str json :=
  <[u"author" := JStr (u"X")]> (<[u"rhyme_scheme" := JStr (u"AABB")]> ∅).

(** The demonstration environment, with every JSON file holding [data]. *)
Definition demo_json_env (data : gmap str json) : Env := {|
  World := demo_world;
  bytes := list ChunkRecord;
  post_embeddings := @post_embeddings demo_env;
  post_generate := @post_generate demo_env;
  read_text := @read_text demo_env;
  json_load := fun _ _ => Some data;
  suffix := demo_suffix;
  rglob := @rglob demo_env;
  is_file := @is_file demo_env;
  lower := demo_lower;
  py_str := fun _ => [];
  makedirs := @makedirs demo_env;
  write_bytes := @write_bytes demo_env;
  path_exists := @path_exists demo_env;
  read_bytes := @read_bytes demo_env;
  pickle_dumps := fun chunks => chunks;
  pickle_loads := fun data => Some data
|}.

Section IndexerEffectsDefinitions.
Context {E : Env}.

(** The requests of the loop: one for each chunk that is not blank, in
    order, whatever the path and the metadata. *)
Definition requests_of (chunks : list str) (w : World) : World :=
  fold_left
    (fun w chunk =>
       (post_embeddings (rag_index.OLLAMA_URL ++ u"/api/embeddings")
          EMBEDDING_MODEL chunk w).2)
    (List.filter (fun chunk => negb (bool_decide (strip chunk = []))) chunks)
    w.

End IndexerEffectsDefinitions.

Section DirectoryDefinitions.
Context {E : Env}.

(** [w'] is reached from [w] by embedding requests and nothing else. *)
Inductive after_requests : World -> World -> Prop :=
  | after_no_request (w : World) : after_requests w w
  | after_request (w w' : World) (chunk : str) :
      after_requests
        (post_embeddings (rag_index.OLLAMA_URL ++ u"/api/embeddings")
           EMBEDDING_MODEL chunk w).2 w' ->
      after_requests w w'.

(** What holds of a record that came from a file of the listing [files]
    whose suffix is among [extensions], in a run that started in [w]: the
    file was a regular file when it was indexed, after some embedding
    requests, and the text of the record is the chunk at position [i] of
    the chunk sequence the file had then. *)
Definition from_listing (extensions files : list str) (w : World)
    (r : ChunkRecord) : Prop :=
  exists (file_path : str) (i : nat) (chunks : list str) (w0 : World),
    after_requests w w0
    /\ file_path ∈ files /\ is_file file_path w0 = true
    /\ suffix file_path ∈ extensions
    /\ file_chunks file_path w0 = Some chunks
    /\ chunks !! i = Some (text r)
    /\ metadata r !! u"file" = Some (PStr file_path)
    /\ metadata r !! u"chunk_index" = Some (PInt (Z.of_nat i))
    /\ strip (text r) <> [] /\ embedding r <> [].

End DirectoryDefinitions.

(** A world with the directory [poems], which holds the one file
    [poems/poem.txt] of 1200 letters. *)
Definition demo_dir_start : demo_world := {|
  demo_requests := 0;
  demo_texts := {[ u"poems/poem.txt" := repeat 97%N 1200 ]};
  demo_blobs := {[ u"poems" := [] ]}
|}.

Definition demo_dir_after : demo_world := {|
  demo_requests := 3;
  demo_texts := demo_texts demo_dir_start;
  demo_blobs := demo_blobs demo_dir_start
|}.

Definition demo_dir_indexed : list ChunkRecord :=
  [ record_of (u"poems/poem.txt") None 0 (repeat 97%N 500) [S754_zero false];
    record_of (u"poems/poem.txt") None 2 (repeat 97%N 300) [S754_zero false] ].

(** The world after [main] has indexed [poem.txt] under the name [mine]. *)
Definition demo_saved : demo_world := {|
  demo_requests := 3;
  demo_texts := demo_texts demo_start;
  demo_blobs := {[ u"rag_index/mine.pkl" := demo_indexed None ]}
|}.

(** The world after [main] has indexed the directory [poems] under the name
    [mine]. *)
Definition demo_dir_saved : demo_world := {|
  demo_requests := 3;
  demo_texts := demo_texts demo_dir_start;
  demo_blobs :=
    <[ u"rag_index/mine.pkl" := demo_dir_indexed ]> (demo_blobs demo_dir_start)
|}.

(** The words of a run of flags on the command line: [(true, s)] stands
    for [--style s] and [(false, p)] for [--file p]. *)
Definition flag_words (flags : list (bool * str)) : list str :=
  flat_map (fun flag => [if flag.1 : bool then u"--style" else u"--file";
                         flag.2]) flags.

(** The file a run of flags names: the word after its last [--file]. *)
Definition given_file (flags : list (bool * str)) : option str :=
  last (snd <$> List.filter (fun flag => negb flag.1) flags).

(** What the argument loop takes for the poem when it comes to it: nothing,
    one last word, or words the first of which is not a flag. Every command
    line is a run of flags followed by such words. *)
Definition poem_words (rest : list str) : Prop :=
  match rest with
  | [] | [_] => True
  | word :: _ => word <> u"--style" /\ word <> u"--file"
  end.

(** What one flag does to the three variables. *)
Definition set_flag (flag : bool * str)
    (opts : simple_translator_main.options)
  : simple_translator_main.options :=
  {| simple_translator_main.translator_style :=
       if flag.1 then flag.2
       else simple_translator_main.translator_style opts;
     simple_translator_main.poem_text :=
       simple_translator_main.poem_text opts;
     simple_translator_main.file_path :=
       if flag.1 then simple_translator_main.file_path opts
       else Some flag.2 |}.

(** * Properties *)

(** ** Strings *)

Lemma len_nonneg (s : str) : 0 <= len s.
Proof. unfold len. lia. Qed.

Lemma prefix_of_app (p s : str) : prefix_of p (p ++ s) = true.
Proof.
  induction p as [|a p IH]; simpl; [reflexivity|].
  rewrite N.eqb_refl. exact IH.
Qed.

Lemma contains_prefix (needle hay : str) :
  prefix_of needle hay = true -> contains needle hay = true.
Proof. intros Hp. destruct hay; simpl; rewrite Hp; reflexivity. Qed.

Lemma contains_app (needle before after : str) :
  contains needle (before ++ needle ++ after) = true.
Proof.
  induction before as [|b before IH].
  - rewrite app_nil_l. apply contains_prefix, prefix_of_app.
  - simpl. rewrite IH. apply orb_true_r.
Qed.

Lemma py_slice_whole (s : str) (hi : Z) : len s <= hi -> py_slice s 0 hi = s.
Proof.
  intros Hhi. unfold py_slice, adjust_index.
  pose proof (len_nonneg s) as Hlen.
  replace (0 <? 0) with false by reflexivity.
  destruct (Z.ltb_spec hi 0); [lia|].
  rewrite (Z.min_l 0 (len s)) by lia. rewrite (Z.min_r hi (len s)) by lia.
  rewrite Z.sub_0_r. simpl. unfold len. rewrite Nat2Z.id.
  apply firstn_all.
Qed.

(** ** The chunker *)

Lemma split_loop_unfold (fuel : nat) (text : str) (chunk_size overlap start : Z)
    (chunks : list str) :
  split_loop (S fuel) text chunk_size overlap start chunks =
  if start <? len text then
    if len text <=? snd (split_step text chunk_size overlap start) then
      Some (chunks ++ [fst (split_step text chunk_size overlap start)])
    else
      split_loop fuel text chunk_size overlap
        (snd (split_step text chunk_size overlap start))
        (chunks ++ [fst (split_step text chunk_size overlap start)])
  else Some chunks.
Proof.
  simpl. destruct (split_step text chunk_size overlap start). reflexivity.
Qed.

(** The cursor after one pass: the raw end or the end after a sentence
    mark, less the overlap. *)
Lemma split_step_cursor (text : str) (chunk_size overlap start : Z) :
  snd (split_step text chunk_size overlap start) = start + chunk_size - overlap
  \/ exists last_sentence,
       chunk_size < 2 * last_sentence
       /\ snd (split_step text chunk_size overlap start)
          = start + last_sentence + 1 - overlap.
Proof.
  unfold split_step.
  destruct (start + chunk_size <? len text); [|left; reflexivity].
  match goal with |- context [chunk_size <? 2 * ?l] => set (last := l) end.
  destruct (Z.ltb_spec chunk_size (2 * last)) as [Hcut|Hcut];
    [|left; reflexivity].
  right. exists last. split; [exact Hcut | reflexivity].
Qed.

Lemma split_step_progress (text : str) (chunk_size overlap start : Z) :
  overlap < chunk_size -> overlap <= chunk_size / 2 + 1 ->
  start < snd (split_step text chunk_size overlap start).
Proof.
  intros Hlt Hhalf.
  destruct (split_step_cursor text chunk_size overlap start)
    as [-> | (last & Hcut & ->)]; [lia|].
  pose proof (Z.mul_div_le chunk_size 2 ltac:(lia)).
  pose proof (Z.mod_pos_bound chunk_size 2 ltac:(lia)).
  pose proof (Z.div_mod chunk_size 2 ltac:(lia)).
  lia.
Qed.

(** With a cursor that advances on every pass, the loop is over within as
    many passes as there are characters left. *)
Lemma split_loop_enough_fuel (text : str) (chunk_size overlap : Z) :
  (forall start, start < snd (split_step text chunk_size overlap start)) ->
  forall fuel start chunks,
    len text - start <= Z.of_nat fuel ->
    exists result,
      split_loop fuel text chunk_size overlap start chunks = Some result.
Proof.
  intros Hprogress fuel.
  induction fuel as [|fuel IH]; intros start chunks Hfuel.
  - simpl. destruct (Z.ltb_spec start (len text)); [lia | eauto].
  - rewrite split_loop_unfold.
    destruct (Z.ltb_spec start (len text)); [|eauto].
    destruct (Z.leb_spec (len text)
                (snd (split_step text chunk_size overlap start))); [eauto|].
    apply IH. specialize (Hprogress start). lia.
Qed.

Lemma split_text_defaults_enough_fuel (text : str) :
  split_text_fuel (length text) text CHUNK_SIZE CHUNK_OVERLAP
  = Some (split_text text).
Proof.
  unfold split_text.
  destruct (split_loop_enough_fuel text CHUNK_SIZE CHUNK_OVERLAP
              ltac:(intros; apply split_step_progress; reflexivity || discriminate)
              (length text) 0 []) as [result Hresult].
  - unfold len. lia.
  - unfold split_text_fuel. rewrite Hresult. reflexivity.
Qed.

(** C1, as the code has it. For every text, every [chunk_size > 0] and every
    [overlap] with [0 <= overlap < chunk_size] and
    [overlap <= chunk_size / 2 + 1] (integer division), every pass of the
    loop of [split_text] moves the cursor strictly forward, and the loop is
    over after at most [len(text)] passes. *)
Theorem split_text_terminates (text : str) (chunk_size overlap : Z) :
  0 < chunk_size ->
  0 <= overlap < chunk_size ->
  overlap <= chunk_size / 2 + 1 ->
  (forall start, start < snd (split_step text chunk_size overlap start))
  /\ exists chunks,
       split_text_fuel (length text) text chunk_size overlap = Some chunks.
Proof.
  intros Hsize Hoverlap Hhalf.
  assert (Hprogress :
            forall start, start < snd (split_step text chunk_size overlap start))
    by (intros; apply split_step_progress; lia).
  split; [exact Hprogress|].
  apply split_loop_enough_fuel; [exact Hprogress|].
  unfold len. lia.
Qed.

Lemma split_text_terminates_witness :
  (forall start, start < snd (split_step (u"A. B! C? D") 5 1 start))
  /\ exists chunks,
       split_text_fuel (length (u"A. B! C? D")) (u"A. B! C? D") 5 1
       = Some chunks.
Proof.
  apply (split_text_terminates (u"A. B! C? D") 5 1).
  - lia.
  - lia.
  - vm_compute. discriminate.
Defined.

(** The scenario of the specification, computed. *)
Example split_text_scenario :
  split_text_fuel 10 (u"A. B! C? D") 5 1
  = Some [u"A. B!"; u"! C?"; u"? D"].
Proof. vm_compute. reflexivity. Qed.

Lemma stuck_cursor_never_returns (fuel : nat) (chunks : list str) :
  split_loop fuel (u"aaa.aaaaaa") 5 4 0 chunks = None.
Proof.
  revert chunks. induction fuel as [|fuel IH]; intros chunks.
  - reflexivity.
  - rewrite split_loop_unfold.
    replace (split_step (u"aaa.aaaaaa") 5 4 0) with (u"aaa.", 0)
      by (vm_compute; reflexivity).
    replace (0 <? len (u"aaa.aaaaaa")) with true by (vm_compute; reflexivity).
    replace (len (u"aaa.aaaaaa") <=? snd (u"aaa.", 0)) with false
      by (vm_compute; reflexivity).
    apply IH.
Qed.

(** C1 as stated fails: with [chunk_size = 5] and [overlap = 4] the text
    ["aaa.aaaaaa"] is cut after its full stop, the cursor comes back to 0,
    and no number of passes ends the loop. *)
Lemma split_text_stuck_cursor :
  0 < 5 /\ 0 <= 4 < 5
  /\ snd (split_step (u"aaa.aaaaaa") 5 4 0) = 0
  /\ forall fuel, split_text_fuel fuel (u"aaa.aaaaaa") 5 4 = None.
Proof.
  split; [lia|]. split; [lia|]. split; [vm_compute; reflexivity|].
  intros fuel. apply stuck_cursor_never_returns.
Qed.

(** The loop only appends, at most one chunk for each pass. *)
Lemma split_loop_appends (text : str) (chunk_size overlap : Z) :
  forall fuel start chunks result,
    split_loop fuel text chunk_size overlap start chunks = Some result ->
    exists more,
      result = chunks ++ more /\ (length more <= fuel)%nat
      /\ (start < len text -> more <> []).
Proof.
  induction fuel as [|fuel IH]; intros start chunks result Hrun.
  - simpl in Hrun. destruct (Z.ltb_spec start (len text)); [congruence|].
    exists []. rewrite app_nil_r. split; [congruence|]. split; [simpl; lia | lia].
  - rewrite split_loop_unfold in Hrun.
    destruct (Z.ltb_spec start (len text)) as [Hlt|].
    + destruct (len text <=? snd (split_step text chunk_size overlap start)).
      * exists [fst (split_step text chunk_size overlap start)].
        split; [congruence|]. split; [simpl; lia | discriminate].
      * destruct (IH _ _ _ Hrun) as (more & -> & Hlen & _).
        exists (fst (split_step text chunk_size overlap start) :: more).
        rewrite <- app_assoc. split; [reflexivity|].
        split; [simpl; lia | discriminate].
    + exists []. rewrite app_nil_r. split; [congruence|].
      split; [simpl; lia | lia].
Qed.

(** C2, as the code has it. For every non-empty text with
    [len(text) < chunk_size]: when [len(text) + overlap <= chunk_size],
    [split_text] returns exactly one chunk, the text stripped; when
    [len(text) + overlap > chunk_size] the cursor after the first chunk is
    still below [len(text)], the loop goes on, and whatever [split_text]
    then returns is the stripped text followed by at least one more
    chunk. *)
Theorem split_text_short (text : str) (chunk_size overlap : Z) (fuel : nat) :
  text <> [] ->
  len text < chunk_size ->
  (len text + overlap <= chunk_size ->
   split_text_fuel (S fuel) text chunk_size overlap = Some [strip text])
  /\ (chunk_size < len text + overlap ->
      forall chunks,
        split_text_fuel (S fuel) text chunk_size overlap = Some chunks ->
        exists more, more <> [] /\ chunks = strip text :: more).
Proof.
  intros Hne Hshort.
  assert (0 < len text) by (destruct text; [congruence | unfold len; simpl; lia]).
  assert (Hstep : split_step text chunk_size overlap 0
                  = (strip text, chunk_size - overlap)).
  { unfold split_step. rewrite Z.add_0_l.
    rewrite py_slice_whole by lia.
    destruct (Z.ltb_spec chunk_size (len text)); [lia | reflexivity]. }
  unfold split_text_fuel. rewrite split_loop_unfold, Hstep.
  simpl fst; simpl snd.
  destruct (Z.ltb_spec 0 (len text)); [|lia]. split.
  - intros Hroom.
    destruct (Z.leb_spec (len text) (chunk_size - overlap));
      [reflexivity | lia].
  - intros Hroom chunks Hrun.
    destruct (Z.leb_spec (len text) (chunk_size - overlap)); [lia|].
    destruct (split_loop_appends _ _ _ _ _ _ _ Hrun)
      as (more & -> & _ & Hmore).
    exists more. split; [apply Hmore; lia | reflexivity].
Qed.

Lemma split_text_short_witness :
  (len (u" abc ") + 50 <= 500 ->
   split_text_fuel 1 (u" abc ") 500 50 = Some [strip (u" abc ")])
  /\ (500 < len (u" abc ") + 50 ->
      forall chunks,
        split_text_fuel 1 (u" abc ") 500 50 = Some chunks ->
        exists more, more <> [] /\ chunks = strip (u" abc ") :: more).
Proof.
  apply (split_text_short (u" abc ") 500 50 0).
  - vm_compute. discriminate.
  - vm_compute. reflexivity.
Defined.

(** C2 as stated fails: ["abc"] is shorter than [chunk_size = 4], and with
    [overlap = 2] the cursor after the first chunk is 2, still inside the
    text, so a second chunk ["c"] follows. *)
Lemma split_text_short_two_chunks :
  u"abc" <> [] /\ len (u"abc") < 4
  /\ split_text_fuel 2 (u"abc") 4 2 = Some [u"abc"; u"c"]
  /\ forall fuel, split_text_fuel fuel (u"abc") 4 2 <> Some [strip (u"abc")].
Proof.
  split; [vm_compute; discriminate|].
  split; [vm_compute; reflexivity|].
  split; [vm_compute; reflexivity|].
  intros [|[|fuel]]; vm_compute; discriminate.
Qed.

(** ** The normalizer *)

Section Normalizer.
Context {E : Env}.

Lemma fold_add_field_None data fields :
  fold_left (add_field data) fields None = None.
Proof. induction fields as [|f fields IH]; [reflexivity | exact IH]. Qed.

Lemma fold_add_field_render data fields parts :
  fold_left (add_field data) fields (Some parts)
  = (parts ++.) <$> render_present data fields.
Proof.
  revert parts. induction fields as [|[[key label] render] fields IH];
    intros parts; simpl.
  - rewrite app_nil_r. reflexivity.
  - destruct (data !! key) as [v|]; [|apply IH].
    destruct (render v) as [s|]; simpl; [|apply fold_add_field_None].
    rewrite IH. destruct (render_present data fields); simpl; [|reflexivity].
    rewrite <- app_assoc. reflexivity.
Qed.

Lemma add_field_fmt data parts key label :
  add_field data (Some parts) (key, label, fun v => Some (fmt v))
  = Some match data !! key with
         | Some v => parts ++ [label ++ fmt v]
         | None => parts
         end.
Proof. unfold add_field; simpl. destruct (data !! key); reflexivity. Qed.

Lemma fold_left_step {A B} (f : A -> B -> A) (x : B) (l : list B) (a : A) :
  fold_left f (x :: l) a = fold_left f l (f a x).
Proof. reflexivity. Qed.

(** One step of the chain of [json_full_text] against one field of the
    table, the parts so far made a variable again. *)
Ltac field_step :=
  rewrite fold_left_step, add_field_fmt;
  lazymatch goal with
  | |- (let x := ?a in @?F x) = ?R =>
      change (F a = R); cbv beta;
      generalize a; intros ?
  end.

Lemma json_full_text_table_fold (data : gmap str json) :
  json_full_text_table data
  = join nl <$> fold_left (add_field data) labelled_fields (Some []).
Proof.
  rewrite fold_add_field_render. unfold json_full_text_table.
  destruct (render_present data labelled_fields); reflexivity.
Qed.

Lemma json_full_text_refines (data : gmap str json) :
  json_full_text data = json_full_text_table data.
Proof.
  rewrite json_full_text_table_fold.
  cbv beta delta [json_full_text labelled_fields].
  lazymatch goal with
  | |- (let x := ?a in @?F x) = ?R => change (F a = R); cbv beta
  end.
  do 8 field_step.
  rewrite fold_left_step.
  lazymatch goal with
  | |- ?m ≫= _ = join nl <$> fold_left _ _ ?a =>
      change a with m; generalize m; intros [parts|]
  end.
  - rewrite fold_left_step, add_field_fmt. reflexivity.
  - reflexivity.
Qed.

Lemma mapM_as_str_strings (items : list json) :
  Forall (fun v => exists s, v = JStr s) items ->
  mapM as_str items = Some (spec_stringify <$> items).
Proof.
  induction 1 as [|v items [s ->] _ IH]; [reflexivity|].
  simpl. rewrite IH. reflexivity.
Qed.

Lemma devices_str_strings (data : gmap str json) (v : json) :
  devices_are_strings data ->
  data !! u"devices" = Some v ->
  devices_str v = Some (spec_devices v).
Proof.
  intros Hstrings Hv. destruct v as [| | | | |items|]; try reflexivity.
  simpl. rewrite (mapM_as_str_strings _ (Hstrings _ Hv)). reflexivity.
Qed.

(** A table of the code and a table of the specification agree on [data]
    when they hold the same keys in the same order, the code writes the
    blank line and the label of the specification before each value, and
    renders each value [data] has as the specification does. *)
Lemma render_present_spec (data : gmap str json)
    (code_fields : list (str * str * (json -> option str)))
    (fields : list (str * bool * str * (json -> str))) :
  Forall2 (fun c s =>
             c.1.1 = s.1.1.1
             /\ c.1.2 = (if s.1.1.2 : bool then nl else []) ++ s.1.2
             /\ forall v, data !! c.1.1 = Some v -> c.2 v = Some (s.2 v))
    code_fields fields ->
  render_present data code_fields = Some (spec_blocks data fields).
Proof.
  induction 1 as [|[[key prefix] render] [[[key' blank] label] render']
                    code_fields fields (Hkey & Hlabel & Hrender) _ IH];
    [reflexivity|].
  simpl in *. subst key' prefix. rewrite IH.
  destruct (data !! key) as [v|] eqn:Hv; [|reflexivity].
  rewrite (Hrender v eq_refl). simpl. rewrite <- app_assoc. reflexivity.
Qed.

Lemma labelled_fields_spec (data : gmap str json) :
  devices_are_strings data ->
  render_present data labelled_fields
  = Some (spec_blocks data (spec_fields true)).
Proof.
  intros Hstrings. apply render_present_spec.
  unfold labelled_fields, spec_fields.
  repeat (constructor;
          [cbn [fst snd app]; split; [reflexivity|]; split; [reflexivity|];
           intros v Hv;
           first [reflexivity | exact (devices_str_strings data v Hstrings Hv)]
          |]).
  constructor.
Qed.

End Normalizer.

(** C6, as the code has it. For every structured document whose
    ["devices"], when a list, holds strings only, the text
    [process_json_file] builds holds the fields that are present and
    nothing for the others, each prefixed with its label, in the fixed
    order, joined with newlines, with a blank line before the original
    text, the translation, the rhyme scheme and the comment. In particular
    the document with author ["X"], original ["line1"] and translation
    ["строка1"] becomes ["Автор: X"], then after a blank line
    ["Оригинальный текст:"] and ["line1"], then after a blank line
    ["Перевод:"] and ["строка1"]. *)
Theorem normalize_renders_present_fields {E : Env} (data : gmap str json) :
  devices_are_strings data ->
  json_full_text data = Some (spec_normalize true data)
  /\ json_full_text
       (<[u"author" := JStr (u"X")]>
          (<[u"original" := JStr (u"line1")]>
             (<[u"translation" := JStr (u"строка1")]> ∅)))
     = Some (u"Автор: X" ++ nl
             ++ nl ++ u"Оригинальный текст:" ++ nl ++ u"line1" ++ nl
             ++ nl ++ u"Перевод:" ++ nl ++ u"строка1").
Proof.
  intros Hstrings. split; [|vm_compute; reflexivity].
  rewrite json_full_text_refines. unfold json_full_text_table.
  rewrite (labelled_fields_spec data Hstrings). unfold spec_normalize.
  reflexivity.
Qed.

(** ** The retriever *)

Section Retriever.
Context {E : Env}.

Lemma find_loop_filter (translator_lower : str) (index found : list ChunkRecord) :
  find_loop translator_lower index found
  = found ++ List.filter
               (fun chunk => contains translator_lower (lower (text chunk)))
               index.
Proof.
  revert found. induction index as [|chunk index IH]; intros found; simpl.
  - rewrite app_nil_r. reflexivity.
  - destruct (contains translator_lower (lower (text chunk))).
    + rewrite IH, <- app_assoc. reflexivity.
    + apply IH.
Qed.

(** C5. For every name and every index, [find_poems_by_translator] returns
    exactly the chunks whose lowercased text contains the lowercased name,
    in the order of the index; so two names that differ only in case, which
    lowercase to the same string, select the same records. *)
Theorem find_poems_by_translator_filter (translator_name : str)
    (index : list ChunkRecord) :
  find_poems_by_translator translator_name index
  = List.filter
      (fun chunk => contains (lower translator_name) (lower (text chunk)))
      index
  /\ forall other_case : str,
       lower other_case = lower translator_name ->
       find_poems_by_translator other_case index
       = find_poems_by_translator translator_name index.
Proof.
  unfold find_poems_by_translator. split.
  - apply find_loop_filter.
  - intros other_case Hcase. rewrite Hcase. reflexivity.
Qed.

End Retriever.

(** ** The prompt composer: the parts of the two templates *)

Lemma examples_loop_filter (translator_poems : list ChunkRecord)
    (examples : list str) :
  examples_loop translator_poems examples
  = examples ++ (text <$> List.filter qualifies translator_poems).
Proof.
  revert examples.
  induction translator_poems as [|chunk poems IH]; intros examples; simpl.
  - rewrite app_nil_r. reflexivity.
  - unfold qualifies at 1.
    destruct (contains _ (text chunk) && contains _ (text chunk)).
    + rewrite IH, <- app_assoc. reflexivity.
    + apply IH.
Qed.

Lemma build_prompt_styled (poem_text translator_style : str)
    (translator_poems : list ChunkRecord) (e : str) (es : list str) :
  text <$> List.filter qualifies translator_poems = e :: es ->
  build_prompt poem_text translator_style translator_poems
  = styled_template translator_style (e :: es) poem_text.
Proof.
  intros Hex. unfold build_prompt.
  rewrite examples_loop_filter, app_nil_l, Hex.
  unfold styled_template, examples_section, closing, separator.
  generalize (join (nl ++ nl ++ u"---" ++ nl ++ nl) (e :: es)).
  intros examples_text.
  lazymatch goal with
  | |- u ?s1 ++ _ ++ u ?s2 ++ _ ++ u ?s3 ++ _ ++ u ?s4 = _ =>
      replace (u s1) with (rhyme_constraints ++ nl ++ nl ++ u"Примеры переводов ")
        by (vm_compute; reflexivity);
      replace (u s2)
        with (u" служат как вдохновение, не копируй их дословно:" ++ nl ++ nl)
        by (vm_compute; reflexivity);
      replace (u s3)
        with ((nl ++ nl ++ u"---" ++ nl ++ nl)
              ++ u"Переведи это стихотворение строго рифмованно, соблюдая схему рифмы, ритм и музыкальность. Сначала придумай рифмы для всего стихотворения, потом составь строки:"
              ++ nl ++ nl)
        by (vm_compute; reflexivity);
      replace (u s4)
        with (nl ++ nl
              ++ u"Твой перевод (только текст, полностью рифмованно, без комментариев):")
        by (vm_compute; reflexivity)
  end.
  rewrite <- !app_assoc. reflexivity.
Qed.

Lemma build_prompt_reduced (poem_text translator_style : str)
    (translator_poems : list ChunkRecord) :
  text <$> List.filter qualifies translator_poems = [] ->
  build_prompt poem_text translator_style translator_poems
  = reduced_template poem_text.
Proof.
  intros Hex. unfold build_prompt.
  rewrite examples_loop_filter, app_nil_l, Hex.
  unfold reduced_template, closing.
  lazymatch goal with
  | |- u ?s1 ++ _ ++ u ?s2 = _ =>
      replace (u s1) with (rhyme_constraints ++ nl ++ nl)
        by (vm_compute; reflexivity);
      replace (u s2)
        with (nl ++ nl
              ++ u"Твой перевод (только текст, полностью рифмованно, без комментариев):")
        by (vm_compute; reflexivity)
  end.
  rewrite <- !app_assoc. reflexivity.
Qed.

Lemma app_insert_neq {A} (pre x post : list A) :
  x <> [] -> pre ++ x ++ post <> pre ++ post.
Proof.
  intros Hx Heq. apply app_inv_head in Heq.
  apply (f_equal (@length A)) in Heq. rewrite length_app in Heq.
  destruct x; [congruence | simpl in Heq; lia].
Qed.

Lemma app_nonempty_l {A} (a b : list A) : a <> [] -> a ++ b <> [].
Proof. destruct a; [congruence | discriminate]. Qed.

Lemma u_examples_heading_nonempty : u"Примеры переводов " <> [].
Proof. vm_compute. discriminate. Qed.

Lemma styled_not_reduced (translator_style poem_text : str)
    (examples : list str) :
  styled_template translator_style examples poem_text
  <> reduced_template poem_text.
Proof.
  exact (app_insert_neq _ _ _
           (app_nonempty_l _ _ u_examples_heading_nonempty)).
Qed.

(** C7. For every poem text, style label and sequence of exemplar chunks,
    the prompt [translate] builds is the style-conditioned template over
    exactly the texts of the chunks that hold both the original-text marker
    and the translation marker, joined with the fixed separator, if and only
    if at least one chunk qualifies; when none qualifies it is the reduced
    template, which has no examples section; both templates start with the
    same rhyme constraints, and in both the prompt embeds the poem text. *)
Theorem build_prompt_templates (poem_text translator_style : str)
    (translator_poems : list ChunkRecord) :
  let examples := text <$> List.filter qualifies translator_poems in
  let prompt := build_prompt poem_text translator_style translator_poems in
  prompt = match examples with
           | [] => reduced_template poem_text
           | _ :: _ => styled_template translator_style examples poem_text
           end
  /\ (prompt = styled_template translator_style examples poem_text
      <-> examples <> [])
  /\ prefix_of rhyme_constraints prompt = true
  /\ contains poem_text prompt = true.
Proof.
  intros examples prompt. subst prompt.
  destruct examples as [|e es] eqn:Hex; subst examples.
  - rewrite (build_prompt_reduced _ _ _ Hex).
    split; [reflexivity|]. split; [|split].
    + split; [|congruence].
      intros Heq. symmetry in Heq. exfalso. revert Heq. apply styled_not_reduced.
    + unfold reduced_template. rewrite <- app_assoc. apply prefix_of_app.
    + unfold reduced_template. apply contains_app.
  - rewrite (build_prompt_styled _ _ _ _ _ Hex).
    split; [reflexivity|]. split; [|split].
    + split; [discriminate | reflexivity].
    + unfold styled_template. rewrite <- app_assoc. apply prefix_of_app.
    + unfold styled_template. rewrite app_assoc. apply contains_app.
Qed.

(** ** A small concrete environment

    Files are kept in finite maps; the embedding service answers every
    request but its second one, which raises; [lower] lowers the letters
    A to Z. *)

Lemma demo_env_laws : EnvLaws demo_env.
Proof.
  split.
  - intros path data w w' Hw. simpl in *. injection Hw as <-. simpl.
    rewrite lookup_insert_eq. reflexivity.
  - intros path data w w' Hw. simpl in *. injection Hw as <-. simpl.
    apply lookup_insert_eq.
  - reflexivity.
Qed.

(** ** The index store *)

(** C8. Loading an index after a save of it that returned gives back the
    chunks saved, under any name, in any world whose file system and
    [pickle] keep [EnvLaws]. *)
Theorem save_then_load {E : Env} (L : EnvLaws E)
    (chunks : list ChunkRecord) (index_name : str) (w w' : World) :
  save_index chunks index_name w = Some w' ->
  load_index index_name w' = Some chunks.
Proof.
  unfold save_index, load_index. intros Hsave.
  destruct (makedirs rag_index.INDEX_DIR w) as [w1|]; [|discriminate].
  simpl in Hsave.
  change simple_translator.INDEX_DIR with rag_index.INDEX_DIR.
  rewrite (write_then_exists _ _ _ _ Hsave). simpl.
  rewrite (write_then_read _ _ _ _ Hsave). simpl.
  apply pickle_roundtrip.
Qed.

Lemma save_then_load_witness :
  @load_index demo_env (u"default")
    {| demo_requests := 0; demo_texts := ∅;
       demo_blobs := {[ u"rag_index/default.pkl" := [demo_record] ]} |}
  = Some [demo_record].
Proof.
  apply (save_then_load demo_env_laws [demo_record] (u"default")
           {| demo_requests := 0; demo_texts := ∅; demo_blobs := ∅ |}).
  vm_compute. reflexivity.
Defined.

(** ** The indexer *)

Section Indexer.
Context {E : Env}.

Lemma index_file_chunks (file_path : str) (metadata : option (gmap str pyval))
    (w : World) :
  index_file file_path metadata w
  = chunks ← file_chunks file_path w;
    index_loop file_path metadata 0 chunks [] w.
Proof.
  unfold index_file, file_chunks.
  destruct (bool_decide (lower (suffix file_path) = u".json")); [reflexivity|].
  destruct (read_text file_path w); reflexivity.
Qed.


Lemma index_loop_ind (file_path : str) (metadata : option (gmap str pyval))
    (all : list str) (P : nat -> list ChunkRecord -> Prop) :
  (forall n acc, P n acc -> P (S n) acc) ->
  (forall n acc chunk embedding,
      P n acc -> all !! n = Some chunk ->
      strip chunk <> [] -> embedding <> [] ->
      P (S n) (acc ++ [record_of file_path metadata n chunk embedding])) ->
  forall (chunks : list str) (n : nat) (acc records : list ChunkRecord)
         (w w' : World),
    drop n all = chunks -> (n <= length all)%nat -> P n acc ->
    index_loop file_path metadata (Z.of_nat n) chunks acc w
    = Some (records, w') ->
    P (length all) records.
Proof.
  intros Hskip Hkeep chunks.
  induction chunks as [|chunk rest IH];
    intros n acc records w w' Hdrop Hn HP Hloop; simpl in Hloop.
  - injection Hloop as <- _.
    apply (f_equal (@length _)) in Hdrop. rewrite length_drop in Hdrop.
    simpl in Hdrop. replace (length all) with n by lia. exact HP.
  - assert (Hlook : all !! n = Some chunk).
    { rewrite <- (Nat.add_0_r n), <- lookup_drop, Hdrop. reflexivity. }
    assert (Hrest : drop (S n) all = rest).
    { rewrite (drop_S _ _ _ Hlook) in Hdrop. congruence. }
    assert (HSn : (S n <= length all)%nat)
      by (apply lookup_lt_Some in Hlook; lia).
    replace (Z.of_nat n + 1) with (Z.of_nat (S n)) in Hloop by lia.
    destruct (bool_decide (strip chunk = [])) eqn:Hblank.
    + exact (IH _ _ _ _ _ Hrest HSn (Hskip _ _ HP) Hloop).
    + apply bool_decide_eq_false in Hblank.
      destruct (get_embedding chunk EMBEDDING_MODEL w) as [[[|x e] w1]|];
        [| |discriminate].
      * exact (IH _ _ _ _ _ Hrest HSn (Hskip _ _ HP) Hloop).
      * refine (IH _ _ _ _ _ Hrest HSn _ Hloop).
        apply Hkeep; auto; discriminate.
Qed.

End Indexer.

Lemma key_chunk_index_file : u"chunk_index" <> u"file".
Proof. intros H. vm_compute in H. discriminate. Qed.

Section IndexerProperties.
Context {E : Env}.

Lemma chunk_metadata_file (file_path : str) (i : Z)
    (metadata : option (gmap str pyval)) :
  chunk_metadata file_path i metadata !! u"file"
  = Some (default (PStr file_path) (default ∅ metadata !! u"file")).
Proof.
  unfold chunk_metadata. rewrite lookup_union.
  rewrite (lookup_insert_ne _ _ _ _ key_chunk_index_file), lookup_insert_eq.
  destruct (default ∅ metadata !! u"file"); reflexivity.
Qed.

Lemma chunk_metadata_chunk_index (file_path : str) (i : Z)
    (metadata : option (gmap str pyval)) :
  chunk_metadata file_path i metadata !! u"chunk_index"
  = Some (default (PInt i) (default ∅ metadata !! u"chunk_index")).
Proof.
  unfold chunk_metadata. rewrite lookup_union, lookup_insert_eq.
  destruct (default ∅ metadata !! u"chunk_index"); reflexivity.
Qed.

(** Every record [index_file] returns was built from a chunk of the file
    that is not blank, at that chunk's position, with a vector that is not
    empty. *)
Lemma index_file_records (file_path : str)
    (metadata : option (gmap str pyval)) (w w' : World)
    (chunks : list str) (records : list ChunkRecord) :
  file_chunks file_path w = Some chunks ->
  index_file file_path metadata w = Some (records, w') ->
  Forall (fun r => exists (i : nat) (e : list float),
              chunks !! i = Some (text r) /\ strip (text r) <> []
              /\ e <> [] /\ r = record_of file_path metadata i (text r) e)
    records.
Proof.
  intros Hchunks Hindex.
  rewrite index_file_chunks, Hchunks in Hindex. simpl in Hindex.
  refine (index_loop_ind file_path metadata chunks
            (fun _ acc => Forall (fun r => exists (i : nat) (e : list float),
               chunks !! i = Some (text r) /\ strip (text r) <> []
               /\ e <> [] /\ r = record_of file_path metadata i (text r) e)
               acc) _ _ chunks 0%nat [] records w w' eq_refl
            (Nat.le_0_l _) ltac:(constructor) Hindex).
  - auto.
  - intros n acc chunk e Hacc Hlook Hblank He.
    apply Forall_app. split; [exact Hacc|].
    constructor; [|constructor]. exists n, e. simpl. auto.
Qed.

(** The positions of the records [index_file] returns increase strictly. *)
Lemma index_file_positions (file_path : str)
    (metadata : option (gmap str pyval)) (w w' : World)
    (chunks : list str) (records : list ChunkRecord) :
  file_chunks file_path w = Some chunks ->
  index_file file_path metadata w = Some (records, w') ->
  exists positions : list nat,
    StronglySorted lt positions
    /\ Forall2 (fun r i => exists e,
                  chunks !! i = Some (text r)
                  /\ r = record_of file_path metadata i (text r) e)
         records positions.
Proof.
  intros Hchunks Hindex.
  rewrite index_file_chunks, Hchunks in Hindex. simpl in Hindex.
  assert (Hinv : exists positions : list nat,
             (StronglySorted lt positions
              /\ Forall (fun i => (i < length chunks)%nat) positions)
             /\ Forall2 (fun r i => exists e,
                  chunks !! i = Some (text r)
                  /\ r = record_of file_path metadata i (text r) e)
                  records positions).
  { refine (index_loop_ind file_path metadata chunks
              (fun n acc => exists positions : list nat,
                 (StronglySorted lt positions
                  /\ Forall (fun i => (i < n)%nat) positions)
                 /\ Forall2 (fun r i => exists e,
                      chunks !! i = Some (text r)
                      /\ r = record_of file_path metadata i (text r) e)
                      acc positions) _ _ chunks 0%nat [] records w w' eq_refl
              (Nat.le_0_l _) _ Hindex).
    - intros n acc (positions & [Hsorted Hlt] & Hall).
      exists positions. split; [split; [exact Hsorted|]|exact Hall].
      eapply Forall_impl; [exact Hlt|]. simpl. lia.
    - intros n acc chunk e (positions & [Hsorted Hlt] & Hall) Hlook _ _.
      exists (positions ++ [n]). split; [split|].
      + clear Hall. induction Hsorted as [|p ps Hps IH Hp]; simpl.
        * repeat constructor.
        * apply Forall_cons_1 in Hlt as [Hpn Hlt]. constructor; [auto|].
          apply Forall_app. split; [exact Hp|]. repeat constructor. exact Hpn.
      + apply Forall_app. split.
        * eapply Forall_impl; [exact Hlt|]. simpl. lia.
        * repeat constructor.
      + apply Forall2_app; [exact Hall|].
        constructor; [|constructor]. exists e. simpl. auto.
    - exists []. repeat constructor. }
  destruct Hinv as (positions & [Hsorted _] & Hall). eauto.
Qed.

End IndexerProperties.

(** ** The run of the concrete environment on its one file *)

Lemma demo_file_chunks :
  @file_chunks demo_env (u"poem.txt") demo_start = Some demo_chunks.
Proof. vm_compute. reflexivity. Qed.

Lemma demo_chunks_not_blank :
  Forall (fun chunk => strip chunk <> []) demo_chunks.
Proof. repeat constructor; intros H; vm_compute in H; discriminate. Qed.

Lemma demo_index_file (metadata : option (gmap str pyval)) :
  @index_file demo_env (u"poem.txt") metadata demo_start
  = Some (demo_indexed metadata, demo_after).
Proof.
  vm_compute. reflexivity.
Qed.


Lemma index_file_has_chunks {E : Env} (file_path : str)
    (metadata : option (gmap str pyval)) (w w' : World)
    (records : list ChunkRecord) :
  index_file file_path metadata w = Some (records, w') ->
  exists chunks, file_chunks file_path w = Some chunks.
Proof.
  rewrite index_file_chunks.
  destruct (file_chunks file_path w) as [chunks|]; [eauto | discriminate].
Qed.



(** The scenario of the specification: of three chunks the second fails to
    embed, and the records of the first and of the third are returned. *)
Example index_file_second_of_three_fails :
  @embeddings_received demo_env demo_chunks demo_start
  = Some [[S754_zero false]; []; [S754_zero false]]
  /\ @index_file demo_env (u"poem.txt") None demo_start
     = Some (demo_indexed None, demo_after).
Proof. split; [vm_compute; reflexivity | apply demo_index_file]. Qed.

(** The one way the embedding client ends the run: a call that raises,
    which happens for a reply that is JSON but not an object, leaves
    [index_file] with the exception. *)
Lemma index_file_client_raises {E : Env} (file_path : str)
    (metadata : option (gmap str pyval)) (w : World) (chunks : list str) :
  file_chunks file_path w = Some chunks ->
  embeddings_received chunks w = None ->
  index_file file_path metadata w = None.
Proof.
  intros Hchunks Hraise. rewrite index_file_chunks, Hchunks. simpl.
  clear Hchunks. generalize 0 at 1. generalize (@nil ChunkRecord).
  revert w Hraise.
  induction chunks as [|chunk rest IH]; intros w Hraise acc i;
    simpl in *; [discriminate|].
  destruct (bool_decide (strip chunk = [])).
  - apply IH. destruct (embeddings_received rest w); [discriminate|reflexivity].
  - destruct (get_embedding chunk EMBEDDING_MODEL w) as [[e w1]|];
      [|reflexivity].
    assert (embeddings_received rest w1 = None)
      by (destruct (embeddings_received rest w1); [discriminate|reflexivity]).
    destruct e; apply IH; assumption.
Qed.

Example index_file_reply_not_object :
  @index_file demo_bad_env (u"poem.txt") None demo_start = None.
Proof. vm_compute. reflexivity. Qed.

(** C9. Every record [index_file] returns has a text that is not empty
    after stripping and an embedding that is not empty. *)
Theorem index_file_records_not_empty {E : Env} (file_path : str)
    (metadata : option (gmap str pyval)) (w w' : World)
    (records : list ChunkRecord) :
  index_file file_path metadata w = Some (records, w') ->
  Forall (fun r => strip (text r) <> [] /\ embedding r <> []) records.
Proof.
  intros Hindex.
  destruct (index_file_has_chunks _ _ _ _ _ Hindex) as [chunks Hchunks].
  eapply Forall_impl;
    [exact (index_file_records _ _ _ _ _ _ Hchunks Hindex)|].
  intros r (i & e & _ & Hblank & He & Hr). split; [exact Hblank|].
  rewrite Hr. exact He.
Qed.

Lemma index_file_records_not_empty_witness :
  Forall (fun r => strip (text r) <> [] /\ embedding r <> [])
    (demo_indexed None).
Proof.
  apply (@index_file_records_not_empty demo_env (u"poem.txt") None
           demo_start demo_after).
  vm_compute. reflexivity.
Defined.

(** C3, as the code has it. In every record [index_file] returns, ["file"]
    maps to the caller's value for that key when the caller's metadata has
    one and to the path of the file otherwise, and ["chunk_index"] maps to
    the caller's value for that key when there is one and otherwise to the
    position of the record's chunk in the chunk sequence of the file. *)
Theorem index_file_metadata {E : Env} (file_path : str)
    (extra : option (gmap str pyval)) (w w' : World)
    (chunks : list str) (records : list ChunkRecord) :
  file_chunks file_path w = Some chunks ->
  index_file file_path extra w = Some (records, w') ->
  Forall (fun r => exists i : nat,
            chunks !! i = Some (text r)
            /\ metadata r !! u"file"
               = Some (default (PStr file_path)
                         (default ∅ extra !! u"file"))
            /\ metadata r !! u"chunk_index"
               = Some (default (PInt (Z.of_nat i))
                         (default ∅ extra !! u"chunk_index")))
    records.
Proof.
  intros Hchunks Hindex.
  eapply Forall_impl;
    [exact (index_file_records _ _ _ _ _ _ Hchunks Hindex)|].
  intros r (i & e & Hlook & _ & _ & Hr). exists i.
  split; [exact Hlook|]. rewrite Hr. simpl.
  split; [apply chunk_metadata_file | apply chunk_metadata_chunk_index].
Qed.

Lemma index_file_metadata_witness :
  Forall (fun r => exists i : nat,
            demo_chunks !! i = Some (text r)
            /\ metadata r !! u"file"
               = Some (default (PStr (u"poem.txt"))
                         (default ∅ (@None (gmap str pyval)) !! u"file"))
            /\ metadata r !! u"chunk_index"
               = Some (default (PInt (Z.of_nat i))
                         (default ∅ (@None (gmap str pyval)) !! u"chunk_index")))
    (demo_indexed None).
Proof.
  apply (@index_file_metadata demo_env (u"poem.txt") None
           demo_start demo_after demo_chunks).
  - vm_compute. reflexivity.
  - vm_compute. reflexivity.
Defined.

(** C3 as stated fails: with the caller's metadata [{"file": "other"}] the
    records of ["poem.txt"] all carry ["other"] under ["file"]. *)
Lemma index_file_caller_file_wins :
  exists records w',
    @index_file demo_env (u"poem.txt")
      (Some {[ u"file" := PStr (u"other") ]}) demo_start
    = Some (records, w')
    /\ records <> []
    /\ Forall (fun r => metadata r !! u"file" = Some (PStr (u"other"))
                        /\ metadata r !! u"file"
                           <> Some (PStr (u"poem.txt")))
         records.
Proof.
  exists (demo_indexed (Some {[ u"file" := PStr (u"other") ]})), demo_after.
  split; [apply demo_index_file|]. split; [discriminate|].
  repeat constructor; simpl; rewrite chunk_metadata_file;
    try reflexivity; intros H; vm_compute in H; discriminate.
Qed.

(** C10, as the code has it. When the caller's metadata has no
    ["chunk_index"], the ["chunk_index"] values of the records [index_file]
    returns for one file are the positions of their chunks in the chunk
    sequence of the file and increase strictly. *)
Theorem index_file_chunk_index_increasing {E : Env} (file_path : str)
    (extra : option (gmap str pyval)) (w w' : World)
    (chunks : list str) (records : list ChunkRecord) :
  default ∅ extra !! u"chunk_index" = None ->
  file_chunks file_path w = Some chunks ->
  index_file file_path extra w = Some (records, w') ->
  exists positions : list nat,
    StronglySorted lt positions
    /\ Forall2 (fun r i => chunks !! i = Some (text r)
                           /\ metadata r !! u"chunk_index"
                              = Some (PInt (Z.of_nat i)))
         records positions.
Proof.
  intros Hnone Hchunks Hindex.
  destruct (index_file_positions _ _ _ _ _ _ Hchunks Hindex)
    as (positions & Hsorted & Hall).
  exists positions. split; [exact Hsorted|].
  eapply Forall2_impl; [exact Hall|].
  intros r i (e & Hlook & Hr). split; [exact Hlook|].
  rewrite Hr. simpl. rewrite chunk_metadata_chunk_index, Hnone. reflexivity.
Qed.

Lemma index_file_chunk_index_increasing_witness :
  exists positions : list nat,
    StronglySorted lt positions
    /\ Forall2 (fun r i => demo_chunks !! i = Some (text r)
                           /\ metadata r !! u"chunk_index"
                              = Some (PInt (Z.of_nat i)))
         (demo_indexed None) positions.
Proof.
  apply (@index_file_chunk_index_increasing demo_env (u"poem.txt") None
           demo_start demo_after demo_chunks).
  - reflexivity.
  - vm_compute. reflexivity.
  - vm_compute. reflexivity.
Defined.

(** The gap of C10: in the run where the second of three chunks fails to
    embed, the stored indices are 0 and 2. *)
Example index_file_chunk_index_gap :
  @index_file demo_env (u"poem.txt") None demo_start
  = Some (demo_indexed None, demo_after)
  /\ (fun r => metadata r !! u"chunk_index") <$> demo_indexed None
     = [Some (PInt 0); Some (PInt 2)].
Proof.
  split; [apply demo_index_file|].
  simpl. rewrite !chunk_metadata_chunk_index. reflexivity.
Qed.

(** C10 as stated fails: with the caller's metadata [{"chunk_index": 7}]
    both records of the run carry 7, so the values do not increase. *)
Lemma index_file_chunk_index_constant :
  exists r1 r2 w',
    @index_file demo_env (u"poem.txt")
      (Some {[ u"chunk_index" := PInt 7 ]}) demo_start
    = Some ([r1; r2], w')
    /\ metadata r1 !! u"chunk_index" = Some (PInt 7)
    /\ metadata r2 !! u"chunk_index" = Some (PInt 7).
Proof.
  eexists _, _, demo_after.
  split; [apply demo_index_file|].
  simpl. rewrite !chunk_metadata_chunk_index. split; reflexivity.
Qed.

(** The witness of C5: the demonstration environment lowers ASCII letters,
    and searching ["Smith"] and ["SMITH"] gives the same records. *)
Lemma find_poems_by_translator_filter_witness :
  @find_poems_by_translator demo_env (u"SMITH") demo_index
  = @find_poems_by_translator demo_env (u"Smith") demo_index.
Proof.
  apply (proj2 (@find_poems_by_translator_filter demo_env (u"Smith")
                  demo_index)).
  vm_compute. reflexivity.
Defined.

(** The scenario of the specification for the retriever. *)
Example find_poems_by_translator_smith :
  text <$> @find_poems_by_translator demo_env (u"SMITH") demo_index
  = [u"Translated by John Smith"; u"smith and jones"].
Proof. vm_compute. reflexivity. Qed.

Lemma normalize_renders_present_fields_witness :
  @json_full_text demo_env demo_document
  = Some (@spec_normalize demo_env true demo_document)
  /\ @json_full_text demo_env
       (<[u"author" := JStr (u"X")]>
          (<[u"original" := JStr (u"line1")]>
             (<[u"translation" := JStr (u"строка1")]> ∅)))
     = Some (u"Автор: X" ++ nl
             ++ nl ++ u"Оригинальный текст:" ++ nl ++ u"line1" ++ nl
             ++ nl ++ u"Перевод:" ++ nl ++ u"строка1").
Proof.
  apply (@normalize_renders_present_fields demo_env demo_document).
  intros items H. vm_compute in H. discriminate.
Defined.

(** C6 as stated fails: a document whose ["devices"] is the list [[1]] is
    not rendered at all, [", ".join] raises [TypeError]; and a rhyme scheme
    comes after a blank line, which the field list of the specification
    does not have there. *)
Lemma normalize_devices_not_rendered :
  @json_full_text demo_env {[ u"devices" := JList [JInt 1] ]} = None
  /\ @json_full_text demo_env demo_rhymed
     = Some (u"Автор: X" ++ nl ++ nl ++ u"Схема рифмовки: AABB")
  /\ @spec_normalize demo_env false demo_rhymed
     = u"Автор: X" ++ nl ++ u"Схема рифмовки: AABB".
Proof.
  split; [vm_compute; reflexivity|].
  split; vm_compute; reflexivity.
Qed.

(** ** More on strings *)

Lemma lstrip_length (s : str) : (length (lstrip s) <= length s)%nat.
Proof.
  induction s as [|c r IH]; simpl; [lia|].
  destruct (is_space c); simpl; lia.
Qed.

Lemma strip_length (s : str) : len (strip s) <= len s.
Proof.
  unfold len, strip, rstrip. rewrite length_rev.
  pose proof (lstrip_length (rev (lstrip s))) as H1.
  rewrite length_rev in H1. pose proof (lstrip_length s). lia.
Qed.

Lemma lstrip_head (s : str) :
  lstrip s = [] \/ exists c r, lstrip s = c :: r /\ is_space c = false.
Proof.
  induction s as [|c r IH]; simpl; [left; reflexivity|].
  destruct (is_space c) eqn:Hc; [exact IH | right; eauto].
Qed.

Lemma lstrip_idempotent (s : str) : lstrip (lstrip s) = lstrip s.
Proof.
  destruct (lstrip_head s) as [-> | (c & r & -> & Hc)]; [reflexivity|].
  simpl. rewrite Hc. reflexivity.
Qed.

Lemma lstrip_app_not_space (s : str) (c : char) :
  is_space c = false -> lstrip (s ++ [c]) = lstrip s ++ [c].
Proof.
  intros Hc. induction s as [|x s IH]; simpl.
  - rewrite Hc. reflexivity.
  - destruct (is_space x); [exact IH | reflexivity].
Qed.

Lemma rstrip_cons_not_space (c : char) (r : str) :
  is_space c = false -> rstrip (c :: r) = c :: rstrip r.
Proof.
  intros Hc. unfold rstrip. simpl.
  rewrite lstrip_app_not_space by exact Hc.
  rewrite rev_app_distr. reflexivity.
Qed.

Lemma rstrip_idempotent (s : str) : rstrip (rstrip s) = rstrip s.
Proof.
  unfold rstrip. rewrite rev_involutive, lstrip_idempotent. reflexivity.
Qed.

Lemma strip_idempotent (s : str) : strip (strip s) = strip s.
Proof.
  unfold strip.
  destruct (lstrip_head s) as [-> | (c & r & -> & Hc)]; [reflexivity|].
  rewrite (rstrip_cons_not_space c r Hc). simpl. rewrite Hc.
  rewrite <- (rstrip_cons_not_space c r Hc). apply rstrip_idempotent.
Qed.

Lemma py_slice_length (s : str) (lo hi : Z) : len (py_slice s lo hi) <= len s.
Proof.
  unfold py_slice, len. rewrite length_firstn, length_skipn. lia.
Qed.

Lemma py_slice_span (s : str) (lo hi : Z) :
  0 <= lo <= len s -> 0 <= hi -> len (py_slice s lo hi) <= Z.max 0 (hi - lo).
Proof.
  intros Hlo Hhi. unfold py_slice, adjust_index.
  destruct (Z.ltb_spec lo 0); [lia|]. destruct (Z.ltb_spec hi 0); [lia|].
  unfold len in *. rewrite length_firstn. lia.
Qed.

(** ** More on the chunker *)

(** The chunk of one pass is stripped and no longer than [chunk_size]. *)
Lemma split_step_chunk (text : str) (chunk_size overlap start : Z) :
  strip (fst (split_step text chunk_size overlap start))
  = fst (split_step text chunk_size overlap start)
  /\ (0 <= start <= len text -> 0 <= chunk_size ->
      len (fst (split_step text chunk_size overlap start)) <= chunk_size).
Proof.
  unfold split_step.
  set (chunk := py_slice text start (start + chunk_size)).
  assert (Hchunk : 0 <= start <= len text -> 0 <= chunk_size ->
                   len chunk <= chunk_size).
  { intros Hs Hc. subst chunk.
    pose proof (py_slice_span text start (start + chunk_size) Hs ltac:(lia)).
    lia. }
  destruct (start + chunk_size <? len text).
  - match goal with |- context [chunk_size <? 2 * ?l] => set (last := l) end.
    destruct (chunk_size <? 2 * last); simpl.
    + split; [apply strip_idempotent|]. intros Hs Hc.
      pose proof (strip_length (py_slice chunk 0 (last + 1))).
      pose proof (py_slice_length chunk 0 (last + 1)).
      specialize (Hchunk Hs Hc). lia.
    + split; [apply strip_idempotent|]. intros Hs Hc.
      pose proof (strip_length chunk). specialize (Hchunk Hs Hc). lia.
  - simpl. split; [apply strip_idempotent|]. intros Hs Hc.
    pose proof (strip_length chunk). specialize (Hchunk Hs Hc). lia.
Qed.

(** An invariant of the cursor and a property of the chunks carry through
    the loop. *)
Lemma split_loop_invariant (text : str) (chunk_size overlap : Z)
    (I : Z -> Prop) (Q : str -> Prop) :
  (forall start, I start -> start < len text ->
     Q (fst (split_step text chunk_size overlap start))
     /\ I (snd (split_step text chunk_size overlap start))) ->
  forall fuel start chunks result,
    I start -> Forall Q chunks ->
    split_loop fuel text chunk_size overlap start chunks = Some result ->
    Forall Q result.
Proof.
  intros Hstep fuel.
  induction fuel as [|fuel IH]; intros start chunks result HI HQ Hrun.
  - simpl in Hrun. destruct (start <? len text); congruence.
  - rewrite split_loop_unfold in Hrun.
    destruct (Z.ltb_spec start (len text)) as [Hlt|]; [|congruence].
    destruct (Hstep start HI Hlt) as [Hq Hi].
    assert (Forall Q (chunks ++ [fst (split_step text chunk_size overlap start)]))
      by (apply Forall_app; split; [exact HQ | repeat constructor; exact Hq]).
    destruct (len text <=? snd (split_step text chunk_size overlap start));
      [congruence | eauto].
Qed.

(** X1. [split_text] returns no chunk exactly for the empty text: whenever
    the loop ends, a text that is not empty gives at least one chunk. *)
Theorem split_text_empty_iff (fuel : nat) (text : str)
    (chunk_size overlap : Z) (chunks : list str) :
  split_text_fuel fuel text chunk_size overlap = Some chunks ->
  chunks = [] <-> text = [].
Proof.
  unfold split_text_fuel. intros Hrun.
  destruct (split_loop_appends _ _ _ _ _ _ _ Hrun) as (more & -> & _ & Hne).
  simpl. split.
  - intros ->. destruct text as [|c r]; [reflexivity|].
    exfalso. apply Hne; [unfold len; simpl; lia | reflexivity].
  - intros ->. destruct fuel; simpl in Hrun; congruence.
Qed.

Lemma split_text_empty_iff_witness :
  [u"A. B!"; u"! C?"; u"? D"] = [] <-> u"A. B! C? D" = [].
Proof.
  apply (split_text_empty_iff 10 (u"A. B! C? D") 5 1).
  vm_compute. reflexivity.
Defined.

(** X2. Every chunk [split_text] returns is stripped: it has no leading and
    no trailing whitespace, for every chunk size and overlap. *)
Theorem split_text_chunks_stripped (fuel : nat) (text : str)
    (chunk_size overlap : Z) (chunks : list str) :
  split_text_fuel fuel text chunk_size overlap = Some chunks ->
  Forall (fun chunk => strip chunk = chunk) chunks.
Proof.
  unfold split_text_fuel. intros Hrun.
  apply (split_loop_invariant text chunk_size overlap (fun _ => True)
           (fun chunk => strip chunk = chunk)) with (4 := Hrun);
    [|exact I|constructor].
  intros start _ _. split; [apply split_step_chunk | exact I].
Qed.

Lemma split_text_chunks_stripped_witness :
  Forall (fun chunk => strip chunk = chunk) [u"A. B!"; u"! C?"; u"? D"].
Proof.
  apply (split_text_chunks_stripped 10 (u"A. B! C? D") 5 1).
  vm_compute. reflexivity.
Defined.

(** X3. With a chunk size and an overlap for which the cursor advances
    ([0 <= overlap < chunk_size] and [overlap <= chunk_size / 2 + 1]), no
    chunk [split_text] returns is longer than [chunk_size]. *)
Theorem split_text_chunk_length (fuel : nat) (text : str)
    (chunk_size overlap : Z) (chunks : list str) :
  0 <= overlap < chunk_size ->
  overlap <= chunk_size / 2 + 1 ->
  split_text_fuel fuel text chunk_size overlap = Some chunks ->
  Forall (fun chunk => len chunk <= chunk_size) chunks.
Proof.
  unfold split_text_fuel. intros Hoverlap Hhalf Hrun.
  apply (split_loop_invariant text chunk_size overlap (fun start => 0 <= start)
           (fun chunk => len chunk <= chunk_size)) with (4 := Hrun);
    [|lia|constructor].
  intros start Hstart Hlt. split.
  - apply split_step_chunk; lia.
  - pose proof (split_step_progress text chunk_size overlap start
                  ltac:(lia) Hhalf). lia.
Qed.

Lemma split_text_chunk_length_witness :
  Forall (fun chunk => len chunk <= 5) [u"A. B!"; u"! C?"; u"? D"].
Proof.
  apply (split_text_chunk_length 10 (u"A. B! C? D") 5 1).
  - lia.
  - vm_compute. discriminate.
  - vm_compute. reflexivity.
Defined.

(** X4. With the defaults, [split_text] returns for every text: at most as
    many chunks as the text has characters, each stripped and at most
    [CHUNK_SIZE] characters long. *)
Theorem split_text_defaults (text : str) :
  split_text_fuel (length text) text CHUNK_SIZE CHUNK_OVERLAP
  = Some (split_text text)
  /\ (length (split_text text) <= length text)%nat
  /\ Forall (fun chunk => strip chunk = chunk /\ len chunk <= CHUNK_SIZE)
       (split_text text).
Proof.
  pose proof (split_text_defaults_enough_fuel text) as Hrun.
  split; [exact Hrun|]. split.
  - destruct (split_loop_appends _ _ _ _ _ _ _ Hrun) as (more & -> & Hlen & _).
    exact Hlen.
  - apply Forall_and. split.
    + exact (split_text_chunks_stripped _ _ _ _ _ Hrun).
    + apply (split_text_chunk_length _ _ _ _ _) with (3 := Hrun).
      * unfold CHUNK_SIZE, CHUNK_OVERLAP. lia.
      * vm_compute. discriminate.
Qed.

(** ** More on the indexer *)

Section IndexerEffects.
Context {E : Env}.

Lemma index_loop_acc (file_path : str) (metadata : option (gmap str pyval))
    (chunks : list str) :
  forall (i : Z) (indexed_chunks : list ChunkRecord) (w : World),
    index_loop file_path metadata i chunks indexed_chunks w
    = (fun r => (indexed_chunks ++ r.1, r.2))
        <$> index_loop file_path metadata i chunks [] w.
Proof.
  induction chunks as [|chunk rest IH]; intros i acc w; simpl.
  - rewrite app_nil_r. reflexivity.
  - destruct (bool_decide (strip chunk = [])); [apply IH|].
    destruct (get_embedding chunk EMBEDDING_MODEL w) as [[[|x e] w1]|];
      [apply IH | | reflexivity].
    rewrite (IH _ (acc ++ _)), (IH _ [_]).
    destruct (index_loop file_path metadata (i + 1) rest [] w1)
      as [[records w2]|]; simpl; [|reflexivity].
    rewrite <- app_assoc. reflexivity.
Qed.

Lemma index_loop_sublist (file_path : str)
    (metadata : option (gmap str pyval)) (chunks : list str) :
  forall (i : Z) (w w' : World) (records : list ChunkRecord),
    index_loop file_path metadata i chunks [] w = Some (records, w') ->
    text <$> records `sublist_of` chunks.
Proof.
  induction chunks as [|chunk rest IH]; intros i w w' records Hloop;
    simpl in Hloop.
  - injection Hloop as <- _. constructor.
  - destruct (bool_decide (strip chunk = []));
      [apply sublist_cons; eauto|].
    destruct (get_embedding chunk EMBEDDING_MODEL w) as [[[|x e] w1]|];
      [apply sublist_cons; eauto | | discriminate].
    rewrite index_loop_acc in Hloop.
    destruct (index_loop file_path metadata (i + 1) rest [] w1)
      as [[later w2]|] eqn:Hlater; [|discriminate].
    injection Hloop as <- _. simpl. apply sublist_skip. eauto.
Qed.

Lemma get_embedding_world (chunk model : str) (w w1 : World)
    (embedding : list float) :
  get_embedding chunk model w = Some (embedding, w1) ->
  w1 = (post_embeddings (rag_index.OLLAMA_URL ++ u"/api/embeddings")
          model chunk w).2.
Proof.
  unfold get_embedding.
  destruct (post_embeddings _ model chunk w) as [[| |[e|]] w2]; simpl;
    congruence.
Qed.

Lemma index_loop_world (file_path : str)
    (metadata : option (gmap str pyval)) (chunks : list str) :
  forall (i : Z) (indexed_chunks records : list ChunkRecord) (w w' : World),
    index_loop file_path metadata i chunks indexed_chunks w
    = Some (records, w') ->
    w' = requests_of chunks w.
Proof.
  unfold requests_of.
  induction chunks as [|chunk rest IH]; intros i acc records w w' Hloop;
    simpl in Hloop.
  - injection Hloop as _ <-. reflexivity.
  - cbn [List.filter].
    destruct (bool_decide (strip chunk = [])); cbn [negb fold_left];
      [eauto|].
    destruct (get_embedding chunk EMBEDDING_MODEL w) as [[e w1]|] eqn:Hget;
      [|discriminate].
    rewrite <- (get_embedding_world _ _ _ _ _ Hget).
    destruct e; eauto.
Qed.

Lemma render_present_None (data : gmap str json)
    (fields : list (str * str * (json -> option str)))
    (key label : str) (render : json -> option str) (v : json) :
  (key, label, render) ∈ fields ->
  data !! key = Some v -> render v = None ->
  render_present data fields = None.
Proof.
  intros Hin Hkey Hrender.
  induction fields as [|[[key' label'] render'] fields IH];
    [inversion Hin|].
  apply elem_of_cons in Hin as [Heq | Hin]; simpl.
  - injection Heq as <- <- <-. rewrite Hkey. simpl. rewrite Hrender.
    reflexivity.
  - rewrite (IH Hin). destruct (data !! key') as [v'|]; [|reflexivity].
    simpl. destruct (render' v'); reflexivity.
Qed.

Lemma render_present_absent (data : gmap str json)
    (fields : list (str * str * (json -> option str))) :
  Forall (fun field => data !! field.1.1 = None) fields ->
  render_present data fields = Some [].
Proof.
  induction 1 as [|[[key label] render] fields Hkey _ IH]; simpl;
    [reflexivity|].
  simpl in Hkey. rewrite Hkey. exact IH.
Qed.

Lemma devices_field :
  (u"devices", u"Художественные приемы: ", devices_str) ∈ labelled_fields.
Proof.
  apply (list_elem_of_lookup_2 _ 8%nat). reflexivity.
Qed.

End IndexerEffects.

(** X5. A file that cannot be read gives no record and causes no request:
    [index_file] returns the empty list, in the world it started in, for a
    [.json] file that [json.load] cannot load and for any other file that
    cannot be opened or decoded. *)
Theorem index_file_unreadable {E : Env} (file_path : str)
    (metadata : option (gmap str pyval)) (w : World) :
  (lower (suffix file_path) = u".json" /\ json_load file_path w = None)
  \/ (lower (suffix file_path) <> u".json" /\ read_text file_path w = None) ->
  index_file file_path metadata w = Some ([], w).
Proof.
  unfold index_file, process_json_file.
  intros [[Hjson Hload] | [Hother Hread]].
  - rewrite bool_decide_eq_true_2 by exact Hjson. rewrite Hload. reflexivity.
  - rewrite bool_decide_eq_false_2 by exact Hother. rewrite Hread.
    reflexivity.
Qed.

Lemma index_file_unreadable_witness :
  @index_file demo_env (u"missing.txt") None demo_start
  = Some ([], demo_start).
Proof.
  apply (@index_file_unreadable demo_env (u"missing.txt") None demo_start).
  right. split; [intros H; vm_compute in H; discriminate|].
  vm_compute. reflexivity.
Defined.

(** X6. The texts of the records [index_file] returns are chunks of the
    file, in the order of the chunk sequence: they form a subsequence of
    it. *)
Theorem index_file_texts_sublist {E : Env} (file_path : str)
    (metadata : option (gmap str pyval)) (w w' : World)
    (chunks : list str) (records : list ChunkRecord) :
  file_chunks file_path w = Some chunks ->
  index_file file_path metadata w = Some (records, w') ->
  text <$> records `sublist_of` chunks.
Proof.
  intros Hchunks Hindex.
  rewrite index_file_chunks, Hchunks in Hindex. simpl in Hindex.
  exact (index_loop_sublist _ _ _ _ _ _ _ Hindex).
Qed.

Lemma index_file_texts_sublist_witness :
  text <$> demo_indexed None `sublist_of` demo_chunks.
Proof.
  apply (@index_file_texts_sublist demo_env (u"poem.txt") None
           demo_start demo_after).
  - vm_compute. reflexivity.
  - vm_compute. reflexivity.
Defined.

(** X7. [index_file] sends one embedding request for each chunk that is not
    blank, in order, and does nothing else to the world: the world it
    returns does not depend on the metadata, and a chunk whose embedding
    failed is not asked for again. *)
Theorem index_file_requests {E : Env} (file_path : str)
    (metadata : option (gmap str pyval)) (w w' : World)
    (chunks : list str) (records : list ChunkRecord) :
  file_chunks file_path w = Some chunks ->
  index_file file_path metadata w = Some (records, w') ->
  w' = requests_of chunks w.
Proof.
  intros Hchunks Hindex.
  rewrite index_file_chunks, Hchunks in Hindex. simpl in Hindex.
  exact (index_loop_world _ _ _ _ _ _ _ _ Hindex).
Qed.

Lemma index_file_requests_witness :
  demo_after = @requests_of demo_env demo_chunks demo_start.
Proof.
  apply (@index_file_requests demo_env (u"poem.txt") None
           demo_start demo_after demo_chunks (demo_indexed None)).
  - vm_compute. reflexivity.
  - vm_compute. reflexivity.
Defined.

(** X8. A [.json] file whose ["devices"] is a list that holds something else
    than strings makes [index_file] raise: the [TypeError] of [", ".join]
    is outside the [try] of [process_json_file], so no record of the file
    is returned. *)
Theorem index_file_devices_type_error {E : Env} (file_path : str)
    (metadata : option (gmap str pyval)) (w : World)
    (data : gmap str json) (devices : list json) :
  lower (suffix file_path) = u".json" ->
  json_load file_path w = Some data ->
  data !! u"devices" = Some (JList devices) ->
  mapM as_str devices = None ->
  process_json_file file_path w = None
  /\ index_file file_path metadata w = None.
Proof.
  intros Hjson Hload Hdevices Hitems.
  assert (Hraise : process_json_file file_path w = None).
  { unfold process_json_file. rewrite Hload, json_full_text_refines.
    unfold json_full_text_table.
    rewrite (render_present_None data labelled_fields _ _ _ _
               devices_field Hdevices); [reflexivity|].
    simpl. rewrite Hitems. reflexivity. }
  split; [exact Hraise|].
  unfold index_file. rewrite bool_decide_eq_true_2 by exact Hjson.
  rewrite Hraise. reflexivity.
Qed.

Lemma index_file_devices_type_error_witness :
  @process_json_file (demo_json_env {[ u"devices" := JList [JInt 1] ]})
    (u"poem.json") demo_start = None
  /\ @index_file (demo_json_env {[ u"devices" := JList [JInt 1] ]})
       (u"poem.json") None demo_start = None.
Proof.
  apply (@index_file_devices_type_error
           (demo_json_env {[ u"devices" := JList [JInt 1] ]})
           (u"poem.json") None demo_start
           {[ u"devices" := JList [JInt 1] ]} [JInt 1]).
  - vm_compute. reflexivity.
  - reflexivity.
  - vm_compute. reflexivity.
  - reflexivity.
Defined.

(** X9. A JSON object with none of the ten keys [process_json_file] knows
    gives the empty text, and so no chunk at all. *)
Theorem process_json_file_no_known_key {E : Env} (file_path : str)
    (w : World) (data : gmap str json) :
  json_load file_path w = Some data ->
  Forall (fun field => data !! field.1.1 = None) labelled_fields ->
  json_full_text data = Some []
  /\ process_json_file file_path w = Some [].
Proof.
  intros Hload Habsent.
  assert (Htext : json_full_text data = Some []).
  { rewrite json_full_text_refines. unfold json_full_text_table.
    rewrite (render_present_absent _ _ Habsent). reflexivity. }
  split; [exact Htext|].
  unfold process_json_file. rewrite Hload, Htext. reflexivity.
Qed.

Lemma process_json_file_no_known_key_witness :
  @json_full_text (demo_json_env {[ u"title" := JStr (u"x") ]})
    {[ u"title" := JStr (u"x") ]} = Some []
  /\ @process_json_file (demo_json_env {[ u"title" := JStr (u"x") ]})
       (u"poem.json") demo_start = Some [].
Proof.
  apply (@process_json_file_no_known_key
           (demo_json_env {[ u"title" := JStr (u"x") ]})
           (u"poem.json") demo_start {[ u"title" := JStr (u"x") ]}).
  - reflexivity.
  - repeat constructor.
Defined.

(** ** The directory indexer *)

Section Directory.
Context {E : Env}.

Lemma index_directory_loop_app (extensions files1 files2 : list str) :
  forall (all_chunks : list ChunkRecord) (w : World),
    index_directory_loop extensions (files1 ++ files2) all_chunks w
    = r ← index_directory_loop extensions files1 all_chunks w;
      index_directory_loop extensions files2 r.1 r.2.
Proof.
  induction files1 as [|file_path rest IH]; intros acc w; simpl.
  - reflexivity.
  - destruct (is_file file_path w
              && bool_decide (suffix file_path ∈ extensions)); [|apply IH].
    destruct (index_file file_path None w) as [[records w1]|]; simpl;
      [apply IH | reflexivity].
Qed.

Lemma index_directory_loop_skips (extensions files : list str) :
  forall (all_chunks : list ChunkRecord) (w : World),
    Forall (fun file_path =>
              is_file file_path w
              && bool_decide (suffix file_path ∈ extensions) = false) files ->
    index_directory_loop extensions files all_chunks w
    = Some (all_chunks, w).
Proof.
  intros acc w. induction 1 as [|file_path rest Hskip _ IH]; simpl.
  - reflexivity.
  - rewrite Hskip. exact IH.
Qed.

Lemma after_requests_trans (w1 w2 w3 : World) :
  after_requests w1 w2 -> after_requests w2 w3 -> after_requests w1 w3.
Proof.
  induction 1 as [|w w' chunk _ IH]; [auto|].
  intros H23. eapply after_request, IH, H23.
Qed.

Lemma after_requests_of (chunks : list str) (w : World) :
  after_requests w (requests_of chunks w).
Proof.
  unfold requests_of.
  generalize (List.filter
                (fun chunk => negb (bool_decide (strip chunk = []))) chunks).
  intros sent. revert w.
  induction sent as [|chunk sent IH]; intros w; simpl.
  - constructor.
  - eapply after_request, IH.
Qed.

Lemma index_file_after_requests (file_path : str)
    (metadata : option (gmap str pyval)) (w w' : World)
    (records : list ChunkRecord) :
  index_file file_path metadata w = Some (records, w') ->
  after_requests w w'.
Proof.
  intros Hindex.
  destruct (index_file_has_chunks _ _ _ _ _ Hindex) as [chunks Hchunks].
  rewrite index_file_chunks, Hchunks in Hindex. simpl in Hindex.
  rewrite (index_loop_world _ _ _ _ _ _ _ _ Hindex).
  apply after_requests_of.
Qed.

Lemma index_directory_loop_records (extensions listing files : list str)
    (w0 : World) :
  forall (all_chunks records : list ChunkRecord) (w w' : World),
    files ⊆ listing ->
    after_requests w0 w ->
    Forall (from_listing extensions listing w0) all_chunks ->
    index_directory_loop extensions files all_chunks w = Some (records, w') ->
    Forall (from_listing extensions listing w0) records.
Proof.
  induction files as [|file_path rest IH];
    intros acc records w w' Hsub Hreach Hacc Hrun; simpl in Hrun.
  - congruence.
  - assert (Hrest : rest ⊆ listing)
      by (intros p Hp; apply Hsub; right; exact Hp).
    destruct (is_file file_path w) eqn:Hfile; simpl in Hrun; [|eauto].
    destruct (bool_decide (suffix file_path ∈ extensions)) eqn:Hext;
      [|eauto].
    apply bool_decide_eq_true in Hext.
    destruct (index_file file_path None w) as [[found w1]|] eqn:Hindex;
      simpl in Hrun; [|discriminate].
    apply (IH _ _ _ _ Hrest) in Hrun; [exact Hrun | |].
    + exact (after_requests_trans _ _ _ Hreach
               (index_file_after_requests _ _ _ _ _ Hindex)).
    + apply Forall_app. split; [exact Hacc|].
      destruct (index_file_has_chunks _ _ _ _ _ Hindex) as [chunks Hchunks].
      eapply Forall_impl;
        [exact (index_file_records _ _ _ _ _ _ Hchunks Hindex)|].
      intros r (i & e & Hlook & Hblank & He & Hr).
      exists file_path, i, chunks, w.
      split; [exact Hreach|]. split; [apply Hsub; left|].
      split; [exact Hfile|]. split; [exact Hext|].
      split; [exact Hchunks|]. split; [exact Hlook|].
      rewrite Hr. simpl.
      rewrite chunk_metadata_file, chunk_metadata_chunk_index.
      auto.
Qed.

End Directory.

(** X10. [index_directory] returns no record and causes no request when the
    directory does not exist, and when nothing it lists is a regular file
    with one of the extensions. *)
Theorem index_directory_nothing_to_index {E : Env} (directory : str)
    (extensions : option (list str)) (w : World) :
  path_exists directory w = false
  \/ Forall (fun file_path =>
               is_file file_path w
               && bool_decide
                    (suffix file_path ∈ default DEFAULT_EXTENSIONS extensions)
               = false)
       (rglob directory w) ->
  index_directory directory extensions w = Some ([], w).
Proof.
  unfold index_directory. intros [Hmissing | Hnone].
  - rewrite Hmissing. reflexivity.
  - destruct (path_exists directory w); [|reflexivity]. simpl.
    apply index_directory_loop_skips, Hnone.
Qed.

Lemma index_directory_nothing_to_index_witness :
  @index_directory demo_env (u"poems") None demo_start
  = Some ([], demo_start).
Proof.
  apply (@index_directory_nothing_to_index demo_env (u"poems") None
           demo_start).
  left. vm_compute. reflexivity.
Defined.

(** X11. Every record [index_directory] returns comes from a path of the
    listing that was a regular file when it was indexed and whose suffix,
    compared as it is written, is one of the extensions; its ["file"] is
    that path, its ["chunk_index"] is the position of its text in the chunk
    sequence the file had then, its text is not blank and its embedding not
    empty. *)
Theorem index_directory_records {E : Env} (directory : str)
    (extensions : option (list str)) (w w' : World)
    (records : list ChunkRecord) :
  index_directory directory extensions w = Some (records, w') ->
  Forall (from_listing (default DEFAULT_EXTENSIONS extensions)
            (rglob directory w) w) records.
Proof.
  unfold index_directory. intros Hrun.
  destruct (path_exists directory w); simpl in Hrun.
  - apply (index_directory_loop_records _ _ _ w _ _ _ _
             ltac:(reflexivity) ltac:(constructor) ltac:(constructor) Hrun).
  - injection Hrun as <- _. constructor.
Qed.

(** X12. Indexing a listing in two parts, the second from the records and
    the world the first part left, is indexing the whole listing: the files
    are indexed one after the other, independently. *)
Theorem index_directory_loop_split {E : Env}
    (extensions files1 files2 : list str)
    (all_chunks : list ChunkRecord) (w : World) :
  index_directory_loop extensions (files1 ++ files2) all_chunks w
  = match index_directory_loop extensions files1 all_chunks w with
    | Some (found, w1) => index_directory_loop extensions files2 found w1
    | None => None
    end.
Proof.
  rewrite index_directory_loop_app.
  destruct (index_directory_loop extensions files1 all_chunks w)
    as [[found w1]|]; reflexivity.
Qed.

(** ** The index store *)

Lemma index_file_name (index_name : str) :
  os_path_join rag_index.INDEX_DIR (index_name ++ u".pkl")
  = if prefix_of (u"/") index_name then index_name ++ u".pkl"
    else u"rag_index/" ++ index_name ++ u".pkl".
Proof.
  unfold os_path_join.
  destruct index_name as [|c rest]; [vm_compute; reflexivity|].
  change (prefix_of (u"/") ((c :: rest) ++ u".pkl"))
    with (prefix_of (u"/") (c :: rest)).
  destruct (prefix_of (u"/") (c :: rest)); reflexivity.
Qed.

Lemma prefix_of_slash (s : str) :
  prefix_of (u"/") s = true -> exists rest, s = 47%N :: rest.
Proof.
  destruct s as [|c rest]; [discriminate|].
  change (prefix_of (u"/") (c :: rest)) with ((47 =? c)%N && true).
  rewrite andb_true_r. intros Hc. apply N.eqb_eq in Hc. subst c. eauto.
Qed.

(** X13. [save_index] writes, and [load_index] reads, the file
    [rag_index/<name>.pkl]; for a name that starts with a slash
    [os.path.join] drops the directory, and the file is [<name>.pkl], an
    absolute path outside of the index directory (which is created all the
    same). *)
Theorem index_file_of_name {E : Env} (chunks : list ChunkRecord)
    (index_name : str) (w : World) :
  let path :=
    if prefix_of (u"/") index_name then index_name ++ u".pkl"
    else u"rag_index/" ++ index_name ++ u".pkl" in
  save_index chunks index_name w
  = (w1 ← makedirs (u"rag_index") w;
     write_bytes path (pickle_dumps chunks) w1)
  /\ load_index index_name w
     = (if negb (path_exists path w) then Some []
        else data ← read_bytes path w; pickle_loads data).
Proof.
  intros path. subst path. unfold save_index, load_index.
  change simple_translator.INDEX_DIR with rag_index.INDEX_DIR.
  rewrite index_file_name. split; reflexivity.
Qed.

Lemma index_directory_records_witness :
  Forall (@from_listing demo_env (default DEFAULT_EXTENSIONS None)
            (@rglob demo_env (u"poems") demo_dir_start) demo_dir_start)
    demo_dir_indexed.
Proof.
  apply (@index_directory_records demo_env (u"poems") None demo_dir_start
           demo_dir_after).
  vm_compute. reflexivity.
Defined.

(** ** The command line of the indexer *)

Lemma flag_name_not_dir : u"--name" <> u"--dir".
Proof. intros H. vm_compute in H. discriminate. Qed.

Lemma written_index_loads {E : Env} (L : EnvLaws E)
    (chunks : list ChunkRecord) (index_name : str) (w w' : World) :
  write_bytes (os_path_join rag_index.INDEX_DIR (index_name ++ u".pkl"))
    (pickle_dumps chunks) w = Some w' ->
  load_index index_name w' = Some chunks.
Proof.
  unfold load_index. intros Hwrite.
  change simple_translator.INDEX_DIR with rag_index.INDEX_DIR.
  rewrite (write_then_exists _ _ _ _ Hwrite). simpl.
  rewrite (write_then_read _ _ _ _ Hwrite). simpl.
  apply pickle_roundtrip.
Qed.

(** X14. [main] leaves through [sys.exit] only when no argument is given,
    and then with code 1: indexing nothing, failing embeddings and an empty
    result all end in a normal return. *)
Theorem main_exit_code {E : Env} (argv : list str) (w : World) (code : Z) :
  main argv w = Some (inl code) <-> code = 1 /\ (length argv < 2)%nat.
Proof.
  unfold main.
  destruct (bool_decide (length argv < 2)%nat) eqn:Hargs.
  - apply bool_decide_eq_true in Hargs. split.
    + intros Hexit. injection Hexit as <-. auto.
    + intros [-> _]. reflexivity.
  - apply bool_decide_eq_false in Hargs. split; [|intros [_ Hlt]; lia].
    match goal with
    | |- ?m ≫= _ = _ -> _ => destruct m as [[name [records w1]]|]
    end; simpl; [|discriminate].
    destruct records; simpl; [discriminate|].
    destruct (save_index _ _ _); discriminate.
Qed.

(** X15. After [main] has run with [--name <name> <file>] and returned, the
    index of that name loads as the records [index_file] gave for the file,
    when there is at least one. *)
Theorem main_name_then_load {E : Env} (L : EnvLaws E)
    (prog index_name file_path : str) (w w1 w' : World)
    (chunks : list ChunkRecord) :
  index_file file_path None w = Some (chunks, w1) ->
  chunks <> [] ->
  main [prog; u"--name"; index_name; file_path] w = Some (inr w') ->
  load_index index_name w' = Some chunks.
Proof.
  intros Hindex Hchunks. unfold main.
  rewrite (bool_decide_eq_false_2 (length _ < 2)%nat) by (simpl; lia).
  cbn [drop lookup list_lookup default from_option id length].
  rewrite (bool_decide_eq_false_2 _ flag_name_not_dir).
  rewrite (bool_decide_eq_true_2 (u"--name" = u"--name")) by reflexivity.
  rewrite (bool_decide_eq_true_2 (3 <= 3)%nat) by lia.
  cbn [andb]. rewrite Hindex. simpl.
  destruct chunks as [|chunk rest]; [congruence|].
  unfold save_index.
  destruct (makedirs rag_index.INDEX_DIR w1) as [w2|]; simpl; [|discriminate].
  destruct (write_bytes _ _ w2) as [w3|] eqn:Hwrite; simpl; [|discriminate].
  intros Hmain. injection Hmain as <-.
  exact (written_index_loads L _ _ _ _ Hwrite).
Qed.

Lemma main_name_then_load_witness :
  @load_index demo_env (u"mine") demo_saved = Some (demo_indexed None).
Proof.
  apply (@main_name_then_load demo_env demo_env_laws (u"rag_index.py")
           (u"mine") (u"poem.txt") demo_start demo_after demo_saved).
  - vm_compute. reflexivity.
  - discriminate.
  - vm_compute. reflexivity.
Defined.

(** X16. [main] with one argument takes it for a file, also when it is
    [--dir] or [--name] with nothing after it; and when indexing gives no
    record, nothing is saved: [main] returns in the world indexing left. *)
Theorem main_saves_nothing_empty {E : Env} (prog file_path : str)
    (w w1 : World) :
  index_file file_path None w = Some ([], w1) ->
  main [prog; file_path] w = Some (inr w1).
Proof.
  intros Hindex. unfold main.
  rewrite (bool_decide_eq_false_2 (length _ < 2)%nat) by (simpl; lia).
  cbn [drop lookup list_lookup default from_option id length].
  rewrite (bool_decide_eq_false_2 (2 <= 1)%nat) by lia.
  rewrite (bool_decide_eq_false_2 (3 <= 1)%nat) by lia.
  rewrite !andb_false_r. rewrite Hindex. reflexivity.
Qed.

Lemma main_saves_nothing_empty_witness :
  @main demo_env [u"rag_index.py"; u"--dir"] demo_start
  = Some (inr demo_start).
Proof.
  apply (@main_saves_nothing_empty demo_env (u"rag_index.py") (u"--dir")
           demo_start demo_start).
  vm_compute. reflexivity.
Defined.

(** X17. After [main] has run with [--dir <directory> --name <name>] and
    returned, the index of that name loads as the records
    [index_directory] gave, when there is at least one. *)
Theorem main_dir_then_load {E : Env} (L : EnvLaws E)
    (prog directory index_name : str) (w w1 w' : World)
    (chunks : list ChunkRecord) :
  index_directory directory None w = Some (chunks, w1) ->
  chunks <> [] ->
  main [prog; u"--dir"; directory; u"--name"; index_name] w
  = Some (inr w') ->
  load_index index_name w' = Some chunks.
Proof.
  intros Hindex Hchunks. unfold main.
  rewrite (bool_decide_eq_false_2 (length _ < 2)%nat) by (simpl; lia).
  cbn [drop lookup list_lookup default from_option id length].
  rewrite (bool_decide_eq_true_2 (u"--dir" = u"--dir")) by reflexivity.
  rewrite (bool_decide_eq_true_2 (u"--name" = u"--name")) by reflexivity.
  rewrite (bool_decide_eq_true_2 (2 <= 4)%nat) by lia.
  rewrite (bool_decide_eq_true_2 (4 <= 4)%nat) by lia.
  cbn [andb]. rewrite Hindex. simpl.
  destruct chunks as [|chunk rest]; [congruence|].
  unfold save_index.
  destruct (makedirs rag_index.INDEX_DIR w1) as [w2|]; simpl; [|discriminate].
  destruct (write_bytes _ _ w2) as [w3|] eqn:Hwrite; simpl; [|discriminate].
  intros Hmain. injection Hmain as <-.
  exact (written_index_loads L _ _ _ _ Hwrite).
Qed.

Lemma main_dir_then_load_witness :
  @load_index demo_env (u"mine") demo_dir_saved = Some demo_dir_indexed.
Proof.
  apply (@main_dir_then_load demo_env demo_env_laws (u"rag_index.py")
           (u"poems") (u"mine") demo_dir_start demo_dir_after demo_dir_saved).
  - vm_compute. reflexivity.
  - discriminate.
  - vm_compute. reflexivity.
Defined.

(** ** More on the retriever and the prompt *)

Lemma filter_filter {A} (p q : A -> bool) (l : list A) :
  List.filter q (List.filter p l) = List.filter (fun x => p x && q x) l.
Proof.
  induction l as [|x l IH]; simpl; [reflexivity|].
  destruct (p x); simpl; [|exact IH].
  destruct (q x); rewrite IH; reflexivity.
Qed.

Lemma filter_sublist {A} (p : A -> bool) (l : list A) :
  List.filter p l `sublist_of` l.
Proof.
  induction l as [|x l IH]; simpl; [constructor|].
  destruct (p x); [apply sublist_skip | apply sublist_cons]; exact IH.
Qed.

Lemma contains_empty (hay : str) : contains [] hay = true.
Proof. destruct hay; reflexivity. Qed.

Lemma filter_all {A} (p : A -> bool) (l : list A) :
  (forall x, p x = true) -> List.filter p l = l.
Proof.
  intros Hp. induction l as [|x l IH]; simpl; [reflexivity|].
  rewrite Hp, IH. reflexivity.
Qed.

(** X18. [find_poems_by_translator] keeps a subsequence of the index, works
    chunk by chunk (it distributes over the concatenation of two indexes),
    and searching again in what was found changes nothing. *)
Theorem find_poems_by_translator_algebra {E : Env} (translator_name : str)
    (index1 index2 : list ChunkRecord) :
  find_poems_by_translator translator_name index1 `sublist_of` index1
  /\ find_poems_by_translator translator_name (index1 ++ index2)
     = find_poems_by_translator translator_name index1
       ++ find_poems_by_translator translator_name index2
  /\ find_poems_by_translator translator_name
       (find_poems_by_translator translator_name index1)
     = find_poems_by_translator translator_name index1.
Proof.
  unfold find_poems_by_translator. rewrite !find_loop_filter. simpl.
  split; [apply filter_sublist|]. split; [apply List.filter_app|].
  rewrite filter_filter. apply List.filter_ext.
  intros chunk. apply andb_diag.
Qed.

(** X19. A name that lowercases to the empty string, as the empty name
    does, selects the whole index: the empty string occurs in every
    text. *)
Theorem find_poems_by_translator_empty_name {E : Env}
    (translator_name : str) (index : list ChunkRecord) :
  lower translator_name = [] ->
  find_poems_by_translator translator_name index = index.
Proof.
  intros Hname. unfold find_poems_by_translator.
  rewrite find_loop_filter, Hname. simpl.
  apply filter_all. intros chunk. apply contains_empty.
Qed.

Lemma find_poems_by_translator_empty_name_witness :
  @find_poems_by_translator demo_env [] demo_index = demo_index.
Proof.
  apply (@find_poems_by_translator_empty_name demo_env [] demo_index).
  reflexivity.
Defined.

(** X20. The exemplars of [translate]: the prompt built from the poems
    found for a style holds, in index order, exactly the texts of the
    chunks that mention the style (whatever the case) and hold both
    markers; when there is none, it is the reduced template, the same for
    every style and every index. *)
Theorem translate_exemplars {E : Env} (poem_text translator_style : str)
    (index : list ChunkRecord) :
  build_prompt poem_text translator_style
    (find_poems_by_translator translator_style index)
  = match text <$> List.filter
                     (fun chunk =>
                        contains (lower translator_style) (lower (text chunk))
                        && qualifies chunk) index with
    | [] => reduced_template poem_text
    | example :: examples =>
        styled_template translator_style (example :: examples) poem_text
    end.
Proof.
  unfold find_poems_by_translator. rewrite find_loop_filter. simpl.
  rewrite <- filter_filter.
  destruct (text <$> List.filter qualifies _) as [|example examples] eqn:Hex.
  - apply build_prompt_reduced. exact Hex.
  - apply build_prompt_styled. exact Hex.
Qed.

(** X21. Chunks that do not mention the style have no influence on
    [translate]: with or without them in the index, the same request is
    sent and the same result returned. *)
Theorem translate_ignores_other_chunks {E : Env}
    (poem_text translator_style model : str)
    (index1 others index2 : list ChunkRecord) (w : World) :
  find_poems_by_translator translator_style others = [] ->
  translate poem_text translator_style (index1 ++ others ++ index2) model w
  = translate poem_text translator_style (index1 ++ index2) model w.
Proof.
  intros Hothers. unfold translate.
  replace (find_poems_by_translator translator_style
             (index1 ++ others ++ index2))
    with (find_poems_by_translator translator_style (index1 ++ index2));
    [reflexivity|].
  revert Hothers. unfold find_poems_by_translator.
  rewrite !find_loop_filter. simpl. rewrite !List.filter_app.
  intros ->. reflexivity.
Qed.

Lemma translate_ignores_other_chunks_witness :
  @translate demo_env (u"Twinkle") (u"Smith")
    (firstn 1 demo_index ++ [demo_record] ++ skipn 1 demo_index)
    (u"gemma3:12b") demo_start
  = @translate demo_env (u"Twinkle") (u"Smith")
      (firstn 1 demo_index ++ skipn 1 demo_index) (u"gemma3:12b") demo_start.
Proof.
  apply (@translate_ignores_other_chunks demo_env).
  vm_compute. reflexivity.
Defined.

(** ** The command line of the translator *)

Lemma flag_file_not_style : u"--file" <> u"--style".
Proof. intros H. vm_compute in H. discriminate. Qed.

Lemma parse_args_poem (word : str) (words : list str)
    (opts : simple_translator_main.options) :
  word <> u"--style" -> word <> u"--file" ->
  simple_translator_main.parse_args (word :: words) opts
  = {| simple_translator_main.translator_style :=
         simple_translator_main.translator_style opts;
       simple_translator_main.poem_text := join (u" ") (word :: words);
       simple_translator_main.file_path :=
         simple_translator_main.file_path opts |}.
Proof.
  intros Hstyle Hfile. destruct words as [|b rest]; [reflexivity|].
  cbn [simple_translator_main.parse_args].
  rewrite (bool_decide_eq_false_2 _ Hstyle), (bool_decide_eq_false_2 _ Hfile).
  reflexivity.
Qed.

Lemma parse_args_style (style : str) (rest : list str)
    (opts : simple_translator_main.options) :
  simple_translator_main.parse_args (u"--style" :: style :: rest) opts
  = simple_translator_main.parse_args rest
      {| simple_translator_main.translator_style := style;
         simple_translator_main.poem_text :=
           simple_translator_main.poem_text opts;
         simple_translator_main.file_path :=
           simple_translator_main.file_path opts |}.
Proof.
  cbn [simple_translator_main.parse_args].
  rewrite (bool_decide_eq_true_2 (u"--style" = u"--style")) by reflexivity.
  reflexivity.
Qed.

Lemma parse_args_file (path : str) (rest : list str)
    (opts : simple_translator_main.options) :
  simple_translator_main.parse_args (u"--file" :: path :: rest) opts
  = simple_translator_main.parse_args rest
      {| simple_translator_main.translator_style :=
           simple_translator_main.translator_style opts;
         simple_translator_main.poem_text :=
           simple_translator_main.poem_text opts;
         simple_translator_main.file_path := Some path |}.
Proof.
  cbn [simple_translator_main.parse_args].
  rewrite (bool_decide_eq_false_2 _ flag_file_not_style).
  rewrite (bool_decide_eq_true_2 (u"--file" = u"--file")) by reflexivity.
  reflexivity.
Qed.

(** X22. A command line whose first argument is not a flag never reaches
    the translation: everything from that word on becomes the poem, a
    [--style] after it included, the style stays empty and [main] exits
    with code 1. So the first form of the usage text,
    [<poem> --style <translator>], always fails. *)
Theorem main_poem_first_exits {E : Env} (prog word : str) (rest : list str)
    (w : World) :
  word <> u"--style" -> word <> u"--file" ->
  simple_translator_main.main (prog :: word :: rest) w = Some (inl 1).
Proof.
  intros Hstyle Hfile. unfold simple_translator_main.main.
  destruct (bool_decide (length (prog :: word :: rest) < 3)%nat);
    [reflexivity|].
  cbn [drop]. rewrite (parse_args_poem _ _ _ Hstyle Hfile). reflexivity.
Qed.

Lemma main_poem_first_exits_witness :
  @simple_translator_main.main demo_env
    [u"simple_translator.py"; u"Twinkle twinkle"; u"--style"; u"Marshak"]
    demo_start
  = Some (inl 1).
Proof.
  apply (@main_poem_first_exits demo_env).
  - intros H. vm_compute in H. discriminate.
  - intros H. vm_compute in H. discriminate.
Defined.

(** X23. With the flags first, [main] loads the index [default] and calls
    [translate] once, with the rest of the command line, joined with
    spaces, as the poem. *)
Theorem main_style_then_poem {E : Env} (prog style word : str)
    (words : list str) (w : World) :
  style <> [] -> word <> [] ->
  word <> u"--style" -> word <> u"--file" ->
  simple_translator_main.main (prog :: u"--style" :: style :: word :: words) w
  = index ← load_index (u"default") w;
    Some (inr (translate (join (u" ") (word :: words)) style index
                 GENERATION_MODEL w)).
Proof.
  intros Hstyle Hword Hnot_style Hnot_file.
  unfold simple_translator_main.main.
  rewrite (bool_decide_eq_false_2 (length _ < 3)%nat) by (simpl; lia).
  cbn [drop]. rewrite parse_args_style.
  rewrite (parse_args_poem _ _ _ Hnot_style Hnot_file).
  cbn [simple_translator_main.translator_style
       simple_translator_main.poem_text simple_translator_main.file_path].
  rewrite (bool_decide_eq_false_2 _ Hstyle).
  rewrite bool_decide_eq_false_2; [reflexivity|].
  destruct word as [|c word]; [congruence|].
  destruct words; discriminate.
Qed.

Lemma main_style_then_poem_witness :
  @simple_translator_main.main demo_env
    [u"simple_translator.py"; u"--style"; u"Marshak"; u"Twinkle"; u"twinkle"]
    demo_start
  = index ← @load_index demo_env (u"default") demo_start;
    Some (inr (@translate demo_env (join (u" ") [u"Twinkle"; u"twinkle"])
                 (u"Marshak") index GENERATION_MODEL demo_start)).
Proof.
  apply (@main_style_then_poem demo_env).
  - intros H. vm_compute in H. discriminate.
  - intros H. vm_compute in H. discriminate.
  - intros H. vm_compute in H. discriminate.
  - intros H. vm_compute in H. discriminate.
Defined.

Lemma parse_args_flag (flag : bool * str) (flags : list (bool * str))
    (rest : list str) (opts : simple_translator_main.options) :
  simple_translator_main.parse_args
    (flag_words (flag :: flags) ++ rest) opts
  = simple_translator_main.parse_args (flag_words flags ++ rest)
      (set_flag flag opts).
Proof.
  destruct flag as [[|] word]; cbn [flag_words flat_map app fst snd].
  - apply parse_args_style.
  - apply parse_args_file.
Qed.

Lemma parse_args_flag_last (flag : bool * str) (flags : list (bool * str))
    (opts : simple_translator_main.options) :
  simple_translator_main.parse_args (flag_words (flag :: flags)) opts
  = simple_translator_main.parse_args (flag_words flags)
      (set_flag flag opts).
Proof.
  pose proof (parse_args_flag flag flags [] opts) as H.
  rewrite !app_nil_r in H. exact H.
Qed.

Lemma flag_words_cons (flag : bool * str) (flags : list (bool * str)) :
  flag_words (flag :: flags) = flag_words [flag] ++ flag_words flags.
Proof. reflexivity. Qed.

(** The poem words change neither the style nor the file. *)
Lemma parse_args_poem_words (flags : list (bool * str)) (rest : list str) :
  poem_words rest ->
  forall opts : simple_translator_main.options,
    simple_translator_main.translator_style
      (simple_translator_main.parse_args (flag_words flags ++ rest) opts)
    = simple_translator_main.translator_style
        (simple_translator_main.parse_args (flag_words flags) opts)
    /\ simple_translator_main.file_path
         (simple_translator_main.parse_args (flag_words flags ++ rest) opts)
       = simple_translator_main.file_path
           (simple_translator_main.parse_args (flag_words flags) opts).
Proof.
  intros Hrest. induction flags as [|flag flags IH]; intros opts.
  - cbn [flag_words flat_map app].
    destruct rest as [|word [|word' rest]]; [auto | auto |].
    destruct Hrest as [Hstyle Hfile].
    rewrite (parse_args_poem _ _ _ Hstyle Hfile). auto.
  - rewrite parse_args_flag, parse_args_flag_last. apply IH.
Qed.

Lemma parse_args_given_file (flags : list (bool * str)) :
  forall opts : simple_translator_main.options,
    simple_translator_main.file_path
      (simple_translator_main.parse_args (flag_words flags) opts)
    = match given_file flags with
      | Some path => Some path
      | None => simple_translator_main.file_path opts
      end.
Proof.
  unfold given_file.
  induction flags as [|[[|] word] flags IH]; intros opts.
  - reflexivity.
  - rewrite parse_args_flag_last, IH. reflexivity.
  - rewrite parse_args_flag_last, IH.
    cbn [List.filter negb fst snd fmap list_fmap]. rewrite last_cons.
    destruct (last _); reflexivity.
Qed.

(** X24. When the command line names a file that is not the empty string,
    the poem words on it are ignored, wherever the flags stand and in
    whatever order: the run is the one without those words. *)
Theorem main_file_overrides_poem {E : Env} (prog path : str)
    (flags : list (bool * str)) (rest : list str) (w : World) :
  given_file flags = Some path -> path <> [] -> poem_words rest ->
  simple_translator_main.main (prog :: flag_words flags ++ rest) w
  = simple_translator_main.main (prog :: flag_words flags) w.
Proof.
  intros Hfile Hpath Hrest.
  assert (Hlen : (2 <= length (flag_words flags))%nat).
  { destruct flags as [|flag flags]; [discriminate|].
    rewrite flag_words_cons. simpl. lia. }
  unfold simple_translator_main.main.
  rewrite !(bool_decide_eq_false_2 (length _ < 3)%nat)
    by (simpl; rewrite ?length_app; lia).
  cbn [drop]. cbv zeta. rewrite !drop_0.
  pose proof (parse_args_poem_words flags rest Hrest
                {| simple_translator_main.translator_style := [];
                   simple_translator_main.poem_text := [];
                   simple_translator_main.file_path := None |})
    as [Hstyle Hsame].
  pose proof (parse_args_given_file flags
                {| simple_translator_main.translator_style := [];
                   simple_translator_main.poem_text := [];
                   simple_translator_main.file_path := None |}) as Hgiven.
  rewrite Hfile in Hgiven. rewrite Hgiven in Hsame.
  rewrite Hstyle, Hsame, Hgiven.
  destruct path as [|c path]; [congruence|]. reflexivity.
Qed.

Lemma main_file_overrides_poem_witness :
  @simple_translator_main.main demo_env
    [u"simple_translator.py"; u"--file"; u"poem.txt"; u"--style"; u"Marshak";
     u"Twinkle"; u"twinkle"] demo_start
  = @simple_translator_main.main demo_env
      [u"simple_translator.py"; u"--file"; u"poem.txt"; u"--style";
       u"Marshak"] demo_start.
Proof.
  apply (@main_file_overrides_poem demo_env (u"simple_translator.py")
           (u"poem.txt") [(false, u"poem.txt"); (true, u"Marshak")]
           [u"Twinkle"; u"twinkle"] demo_start).
  - reflexivity.
  - intros H. vm_compute in H. discriminate.
  - split; intros H; vm_compute in H; discriminate.
Defined.

(** ** The command line of app.py *)

Lemma join_not_empty (sep word : str) (words : list str) :
  word <> [] -> join sep (word :: words) <> [].
Proof.
  intros Hword. destruct word as [|c word]; [congruence|].
  destruct words; discriminate.
Qed.

(** X25. When [main] of [app.py] goes on to [generate], the prompt is not
    empty; it streams only after [--stream], and it uses another model
    than the default only after [--model]. *)
Theorem app_main_generate (argv : list str) (prompt model : str)
    (stream : bool) :
  app.main_call argv = inr (app.Generate prompt model stream) ->
  prompt <> []
  /\ (stream = true -> argv !! 1%nat = Some (u"--stream"))
  /\ (model <> u"gpt-oss:20b" -> argv !! 1%nat = Some (u"--model")).
Proof.
  unfold app.main_call.
  destruct (bool_decide (length argv < 2)%nat); [discriminate|].
  destruct (bool_decide (argv !! 1%nat = Some (u"--list"))); [discriminate|].
  replace (drop 1 argv !! 0%nat) with (argv !! 1%nat)
    by (rewrite lookup_drop; reflexivity).
  destruct (bool_decide (argv !! 1%nat = Some (u"--model"))) eqn:Hmodel;
    [apply bool_decide_eq_true in Hmodel|];
    (destruct (bool_decide (3 <= length (drop 1 argv))%nat); cbn [andb]);
    try (destruct (bool_decide (argv !! 1%nat = Some (u"--stream")))
           eqn:Hstream; [apply bool_decide_eq_true in Hstream|]);
    match goal with
    | |- (if bool_decide (?p = []) then _ else _) = _ -> _ =>
        destruct (bool_decide (p = [])) eqn:Hprompt; [discriminate|];
        apply bool_decide_eq_false in Hprompt
    end;
    intros Hcall; injection Hcall as <- <- <-;
    (split; [exact Hprompt|]); split; congruence.
Qed.

Lemma app_main_generate_witness :
  u"hello world" <> []
  /\ (true = true
      -> [u"app.py"; u"--stream"; u"hello"; u"world"] !! 1%nat
         = Some (u"--stream"))
  /\ (u"gpt-oss:20b" <> u"gpt-oss:20b"
      -> [u"app.py"; u"--stream"; u"hello"; u"world"] !! 1%nat
         = Some (u"--model")).
Proof.
  apply (app_main_generate [u"app.py"; u"--stream"; u"hello"; u"world"]
           (u"hello world") (u"gpt-oss:20b") true).
  vm_compute. reflexivity.
Defined.

(** X26. [--model <name>] with no prompt after it is not taken as a choice
    of model: the two words are sent as the prompt to the default model;
    and [--stream] with nothing after it exits with code 1. *)
Theorem app_main_flag_without_prompt (prog name : str) :
  app.main_call [prog; u"--model"; name]
  = inr (app.Generate (u"--model " ++ name) (u"gpt-oss:20b") false)
  /\ app.main_call [prog; u"--stream"] = inl 1.
Proof.
  split; [|vm_compute; reflexivity].
  unfold app.main_call.
  rewrite (bool_decide_eq_false_2 (length _ < 2)%nat) by (simpl; lia).
  cbn [drop lookup list_lookup length].
  rewrite (bool_decide_eq_false_2 (Some (u"--model") = Some (u"--list")))
    by (intros H; vm_compute in H; discriminate).
  rewrite (bool_decide_eq_false_2 (3 <= 2)%nat) by lia.
  rewrite andb_false_r.
  rewrite (bool_decide_eq_false_2 (Some (u"--model") = Some (u"--stream")))
    by (intros H; vm_compute in H; discriminate).
  rewrite bool_decide_eq_false_2 by (apply join_not_empty; vm_compute; discriminate).
  reflexivity.
Qed.
